(** * gallerylog: an authenticated, append-only activity ledger

    Shallow embedding of [security_utils.{h,cpp}], [logappend.cpp] and
    [logread.cpp], followed by the properties of the ledger.

    Conventions of the embedding:
    - [std::string] is [string]; a [char] is an [ascii] and its value as
      [unsigned char] is [uchar c : Z];
    - [std::unordered_map<std::string, PersonState>] is
      [gmap string PersonState], [std::unordered_set<std::string>] is
      [gset string], [std::vector<T>] is [list T];
    - the file system is a finite map from paths to file contents; what the
      operating system decides (whether an open or a lock succeeds, how many
      bytes a write transfers, the wall clock) is read from a record [Env];
    - a process run is a function from its arguments, the file system and the
      environment to an [Outcome]: exit status, standard output, standard
      error and the file system it leaves behind. *)

From Stdlib Require Import ZArith Ascii String List Bool Lia.
From stdpp Require Import base option list gmap strings pretty fin_maps.

(** ** Characters and strings *)

Definition uchar (c : ascii) : Z := Z.of_N (N_of_ascii c).

(** [<cctype>] in the "C" locale (the programs never call [setlocale]). *)
Definition isdigit (c : Z) : bool := ((48 <=? c) && (c <=? 57))%Z.
Definition isupper (c : Z) : bool := ((65 <=? c) && (c <=? 90))%Z.
Definition islower (c : Z) : bool := ((97 <=? c) && (c <=? 122))%Z.
Definition isalpha (c : Z) : bool := isupper c || islower c.
Definition isalnum (c : Z) : bool := isalpha c || isdigit c.

(** [for (char c : s) if (!p(c)) return false; return true;] *)
Fixpoint all_chars (p : ascii → bool) (s : string) : bool :=
  match s with
  | EmptyString => true
  | String c s' => if p c then all_chars p s' else false
  end.

(** [s.back()] and [s.pop_back()]; both are undefined on the empty string
    in C++, and the only caller guards them with [!s.empty()]. *)
Fixpoint back (s : string) : option ascii :=
  match s with
  | EmptyString => None
  | String c EmptyString => Some c
  | String _ s' => back s'
  end.

Fixpoint pop_back (s : string) : string :=
  match s with
  | EmptyString => EmptyString
  | String _ EmptyString => EmptyString
  | String c s' => String c (pop_back s')
  end.

Definition push_back (s : string) (c : ascii) : string := s +:+ String c "".

(** ** SHA-256 (OpenSSL's [SHA256_Init]/[SHA256_Update]/[SHA256_Final])

    The digest is the one of FIPS 180-4, on 32-bit words kept in [Z] with
    the wrap-around written out. *)
Module SHA256.
Local Open Scope Z_scope.

Definition w32 (x : Z) : Z := x mod 2 ^ 32.
Definition rotr (n x : Z) : Z := Z.lor (Z.shiftr x n) (w32 (Z.shiftl x (32 - n))).
Definition not32 (x : Z) : Z := Z.lxor x 0xffffffff.

Definition Ch (x y z : Z) : Z := Z.lxor (Z.land x y) (Z.land (not32 x) z).
Definition Maj (x y z : Z) : Z :=
  Z.lxor (Z.lxor (Z.land x y) (Z.land x z)) (Z.land y z).
Definition Sigma0 (x : Z) : Z := Z.lxor (Z.lxor (rotr 2 x) (rotr 13 x)) (rotr 22 x).
Definition Sigma1 (x : Z) : Z := Z.lxor (Z.lxor (rotr 6 x) (rotr 11 x)) (rotr 25 x).
Definition sigma0 (x : Z) : Z := Z.lxor (Z.lxor (rotr 7 x) (rotr 18 x)) (Z.shiftr x 3).
Definition sigma1 (x : Z) : Z := Z.lxor (Z.lxor (rotr 17 x) (rotr 19 x)) (Z.shiftr x 10).

(** The constants are defined as FIPS 180-4 defines them: the first 32 bits
    of the fractional parts of the cube roots ([K]) and of the square roots
    ([H0]) of the first primes. *)
Definition is_prime (n : nat) : bool :=
  forallb (λ d, negb (n mod d =? 0)%nat) (seq 2 (n - 2)).

Definition primes (count : nat) : list nat :=
  take count (filter (λ n, is_prime n = true) (seq 2 310)).

(** Integer cube root of [n], bit by bit from bit [bits - 1] down. *)
Fixpoint cbrt_bits (bits : nat) (n r : Z) : Z :=
  match bits with
  | O => r
  | S b =>
      let r' := r + 2 ^ Z.of_nat b in
      cbrt_bits b n (if r' * r' * r' <=? n then r' else r)
  end.

Definition K : list Z :=
  (λ p, w32 (cbrt_bits 40 (Z.shiftl (Z.of_nat p) 96) 0)) <$> primes 64.

Definition H0 : list Z :=
  (λ p, w32 (Z.sqrt (Z.shiftl (Z.of_nat p) 64))) <$> primes 8.

(** Big-endian bytes of [x], [n] of them. *)
Fixpoint be_bytes (n : nat) (x : Z) : list Z :=
  match n with
  | O => []
  | S n' => Z.land (Z.shiftr x (8 * Z.of_nat n')) 0xff :: be_bytes n' x
  end.

Definition pad (msg : list Z) : list Z :=
  let l := length msg in
  msg ++ [0x80] ++ replicate ((119 - l `mod` 64) `mod` 64)%nat 0
      ++ be_bytes 8 (8 * Z.of_nat l).

Fixpoint be_words (n : nat) (bs : list Z) : list Z :=
  match n, bs with
  | S n', b0 :: b1 :: b2 :: b3 :: bs' =>
      Z.lor (Z.shiftl b0 24) (Z.lor (Z.shiftl b1 16) (Z.lor (Z.shiftl b2 8) b3))
        :: be_words n' bs'
  | _, _ => []
  end.

Fixpoint schedule (n : nat) (w : list Z) : list Z :=
  match n with
  | O => w
  | S n' =>
      let t := length w in
      let at_ k := nth (t - k) w 0 in
      schedule n' (w ++ [w32 (sigma1 (at_ 2%nat) + at_ 7%nat + sigma0 (at_ 15%nat) + at_ 16%nat)])
  end.

Definition round (s : list Z) (kw : Z * Z) : list Z :=
  match s with
  | [a; b; c; d; e; f; g; h] =>
      let T1 := h + Sigma1 e + Ch e f g + kw.1 + kw.2 in
      let T2 := Sigma0 a + Maj a b c in
      [w32 (T1 + T2); a; b; c; w32 (d + T1); e; f; g]
  | _ => s
  end.

Definition compress (h : list Z) (block : list Z) : list Z :=
  let w := schedule 48 (be_words 16 block) in
  let s := fold_left round (zip K w) h in
  zip_with (λ x y, w32 (x + y)) h s.

Fixpoint blocks (n : nat) (bs : list Z) (h : list Z) : list Z :=
  match n with
  | O => h
  | S n' => blocks n' (drop 64 bs) (compress h (take 64 bs))
  end.

Definition digest (msg : list Z) : list Z :=
  let p := pad msg in
  mjoin (be_bytes 4 <$> blocks (length p / 64)%nat p H0).
End SHA256.

Definition SHA256_DIGEST_LENGTH : nat := 32.

(** [s.data()] as unsigned bytes. *)
Fixpoint data (s : string) : list Z :=
  match s with
  | EmptyString => []
  | String c s' => uchar c :: data s'
  end.

(** ** security_utils.cpp: tokens and authentication *)

Inductive Operation := Read | Append.
Inductive Permission := ReadOnly | AppendOnly | ReadWrite.

Record UserTokenInfo := {
  user_actorId : string;
  permission : Permission;
  tokenHash : string
}.

Definition HEX : string := "0123456789abcdef".

Definition hex_char (i : Z) : ascii :=
  default "000"%char (String.get (Z.to_nat i) HEX).

Fixpoint toHex (bytes : list Z) : string :=
  match bytes with
  | [] => ""
  | b :: bs =>
      String (hex_char (Z.land (Z.shiftr b 4) 0x0F))
        (String (hex_char (Z.land b 0x0F)) (toHex bs))
  end.

Definition sha256Hex (s : string) : string :=
  toHex (take SHA256_DIGEST_LENGTH (SHA256.digest (data s))).

(** The loop of [constantTimeEquals]: [diff |= (unsigned char)(a[i] ^ b[i])]. *)
Fixpoint xor_fold (a b : string) (diff : Z) : Z :=
  match a, b with
  | String x a', String y b' =>
      xor_fold a' b' (Z.lor diff (Z.lxor (uchar x) (uchar y) mod 256))
  | _, _ => diff
  end.

Definition constantTimeEquals (a b : string) : bool :=
  if negb (String.length a =? String.length b)%nat then false
  else (xor_fold a b 0 =? 0)%Z.

Definition BUILT_IN_STORE : list UserTokenInfo :=
  [ {| user_actorId := "guard_alex"; permission := AppendOnly;
       tokenHash := "e45703ec0bf6e9b29fec9e4819f33c7c8a302d93eccef0f7bddd57c80c93f5a0" |};
    {| user_actorId := "manager_kim"; permission := ReadOnly;
       tokenHash := "12ae512c7eeda74af4e625e1fe2888645c434586d24b75ea3302d3d75d121130" |};
    {| user_actorId := "admin_lee"; permission := ReadWrite;
       tokenHash := "f929608275fa3fa111110583af685764f71a1ddc67dd2af65284e35eceb583ad" |} ].

Definition getBuiltInTokenStore : list UserTokenInfo := BUILT_IN_STORE.

Definition permissionAllows (p : Permission) (op : Operation) : bool :=
  match p, op with
  | ReadWrite, _ => true
  | ReadOnly, Read => true
  | ReadOnly, Append => false
  | AppendOnly, Append => true
  | AppendOnly, Read => false
  end.

(** The scan of [authenticateToken]; [None] is [nullptr]. *)
Fixpoint scan_store (providedHash : string) (requiredOp : Operation)
    (store : list UserTokenInfo) : option UserTokenInfo :=
  match store with
  | [] => None
  | user :: rest =>
      if constantTimeEquals providedHash (tokenHash user) then
        if permissionAllows (permission user) requiredOp then Some user
        else None
      else scan_store providedHash requiredOp rest
  end.

Definition authenticateToken (providedToken : string) (requiredOp : Operation)
    (store : list UserTokenInfo) : option UserTokenInfo :=
  if bool_decide (providedToken = "") then None
  else scan_store (sha256Hex providedToken) requiredOp store.

(** ** security_utils.cpp: validation helpers *)

(** Represents a single validated log entry in memory. *)
Record LogEntry := {
  timestamp : string;
  actorId : string;
  personId : string;
  action : string;
  roomId : string
}.

Definition id_char (c : ascii) : bool :=
  isalnum (uchar c) || Ascii.eqb c "_" || Ascii.eqb c "-".

(** Used for actorId and personId. *)
Definition validIdLike (s : string) : bool :=
  if bool_decide (s = "") || (32 <? String.length s)%nat then false
  else all_chars id_char s.

Definition validateAction (action : string) : bool :=
  String.eqb action "ENTER" || String.eqb action "MOVE" || String.eqb action "EXIT".

Definition ROOMS : gset string :=
  {[ "lobby"; "gallery1"; "gallery2"; "vault"; "security"; "storage"; "-" ]}.

Definition validateRoomId (room : string) : bool := bool_decide (room ∈ ROOMS).

Definition validatePersonId (id : string) : bool := validIdLike id.

Definition validateTimestamp (ts : string) : bool :=
  if bool_decide (ts = "") || (11 <? String.length ts)%nat then false
  else all_chars (λ c, isdigit (uchar c)) ts.

(** ** security_utils.cpp: log formatting and parsing *)

(** The loop of [split]: [out] is the vector built so far and [cur] the
    field being read. *)
Fixpoint split_loop (s : string) (delim : ascii) (out : list string)
    (cur : string) : list string :=
  match s with
  | EmptyString => out ++ [cur]
  | String c s' =>
      if Ascii.eqb c delim then split_loop s' delim (out ++ [cur]) ""
      else split_loop s' delim out (push_back cur c)
  end.

Definition split (s : string) (delim : ascii) : list string :=
  split_loop s delim [] "".

Definition LF : ascii := "010"%char.
Definition CR : ascii := "013"%char.

Definition formatLogEntry (e : LogEntry) : string :=
  timestamp e +:+ "|" +:+ actorId e +:+ "|" +:+ personId e +:+ "|"
    +:+ action e +:+ "|" +:+ roomId e +:+ String LF "".

Definition is_eol (c : ascii) : bool := Ascii.eqb c LF || Ascii.eqb c CR.

(** [while (!s.empty() && (s.back() == '\n' || s.back() == '\r')) s.pop_back();]
    Every iteration shortens [s], so [String.length s] iterations are
    enough ([strip_eol_fixed] below: the loop condition is false at the
    result). *)
Fixpoint strip_loop (fuel : nat) (s : string) : string :=
  match fuel with
  | O => s
  | S fuel' =>
      match back s with
      | Some c => if is_eol c then strip_loop fuel' (pop_back s) else s
      | None => s
      end
  end.

Definition strip_eol (s : string) : string := strip_loop (String.length s) s.

(** [parseLogLine]: [None] is [return false] ([out] is left untouched),
    [Some e] is [return true] with [out = e]. *)
Definition parseLogLine (line : string) : option LogEntry :=
  let s := strip_eol line in
  match split s "|" with
  | [ts; aid; pid; act; room] =>
      if negb (validateTimestamp ts) then None
      else if negb (validIdLike aid) then None
      else if negb (validatePersonId pid) then None
      else if negb (validateAction act) then None
      else if negb (validateRoomId room) then None
      else Some {| timestamp := ts; actorId := aid; personId := pid;
                   action := act; roomId := room |}
  | _ => None
  end.

Definition printSecureError (msg : string) : string :=
  "[error] " +:+ msg +:+ String LF "".

(** ** The file system and the operating system *)

Definition LOG_FILE_PATH : string := "logs/gallery.log".

Definition nl : string := String LF "".

Inductive Errno := ENOENT | EACCES | ENOTDIR | EMFILE.

(** Why the operating system may refuse an open, the absence of the file
    apart: no permission on the file or on a directory of the path, a
    component of the path that is not a directory, no descriptor left. *)
Inductive OpenRefusal := Denied | NotADirectory | TooManyFiles.

Definition refusal_errno (r : OpenRefusal) : Errno :=
  match r with
  | Denied => EACCES
  | NotADirectory => ENOTDIR
  | TooManyFiles => EMFILE
  end.

(** What the operating system decides in one run. *)
Record Env := {
  open_append_ok : bool;     (* open(O_WRONLY|O_CREAT|O_APPEND, 0600) gives a descriptor *)
  open_ro_refusal : option OpenRefusal;
                             (* open(O_RDONLY) is refused for a reason other than a missing file *)
  flock_ok : bool;           (* flock grants the lock *)
  ifstream_ok : bool;        (* std::ifstream opens an existing file *)
  write_limit : option nat;  (* None: write returns -1; Some k: it transfers at most k bytes *)
  clock : Z                  (* std::chrono::system_clock, as time_t *)
}.

(** Returns the descriptor (or -1) and [errno]. When the operating system
    refuses the open, [errno] is the one of the refusal, whether the file is
    there or not; otherwise a missing file is [ENOENT] and an existing one
    opens. *)
Definition openFileRO (env : Env) (fs : gmap string string) (path : string)
    : Z * option Errno :=
  match open_ro_refusal env with
  | Some r => (-1, Some (refusal_errno r))%Z
  | None =>
      match fs !! path with
      | None => (-1, Some ENOENT)%Z
      | Some _ => (3, None)%Z
      end
  end.

(** [O_CREAT]: a missing file is created, empty. *)
Definition openFileAppend (env : Env) (fs : gmap string string) (path : string)
    : Z * gmap string string :=
  if open_append_ok env then
    (3%Z, match fs !! path with
          | Some _ => fs
          | None => <[path := ""]> fs
          end)
  else ((-1)%Z, fs).

Definition lockFile (env : Env) (fd : Z) (exclusive : bool) : bool :=
  if (fd <? 0)%Z then false
  else if negb (flock_ok env) then false
  else true.

(** [write(fd, buf, n)] on a descriptor opened with [O_APPEND]. *)
Definition write (env : Env) (fs : gmap string string) (path buf : string)
    : Z * gmap string string :=
  match write_limit env with
  | None => ((-1)%Z, fs)
  | Some k =>
      let n := k `min` String.length buf in
      (Z.of_nat n,
       <[path := default "" (fs !! path) +:+ String.substring 0 n buf]> fs)
  end.

(** [std::ifstream in(path)]: the content when [in.is_open()]. *)
Definition ifstream (env : Env) (fs : gmap string string) (path : string)
    : option string :=
  if ifstream_ok env then fs !! path else None.

(** The lines that successive [std::getline(in, line)] calls deliver before
    one fails: [cur] is the line being extracted and [got] tells whether the
    current call has extracted a character. At the end of the stream a call
    that extracted something succeeds, one that extracted nothing fails. *)
Fixpoint getlines (s : string) (cur : string) (got : bool) : list string :=
  match s with
  | EmptyString => if got then [cur] else []
  | String c s' =>
      if Ascii.eqb c LF then cur :: getlines s' "" false
      else getlines s' (push_back cur c) true
  end.

Definition read_lines (content : string) : list string := getlines content "" false.

(** The result of one process run. *)
Record Outcome := {
  exit_code : Z;
  stdout : string;
  stderr : string;
  fs_after : gmap string string
}.

Definition exit (code : Z) (out err : string) (fs : gmap string string) : Outcome :=
  {| exit_code := code; stdout := out; stderr := err; fs_after := fs |}.

(** ** logappend.cpp *)
Module LogAppend.

(** [std::to_string(time_t)] *)
Definition getCurrentTimestamp (env : Env) : string := pretty (clock env).

(** Simple struct to track current state of a person. *)
Record PersonState := { inside : bool; room : string }.

Definition PersonState_init : PersonState := {| inside := false; room := "" |}.

Record Args := {
  arg_token : string;
  arg_event : string;
  arg_personId : string;
  arg_roomId : string
}.

(** The argument loop, from [argv[i]] on. *)
Fixpoint parse_args (rest : list string) (a : Args) : Args :=
  match rest with
  | [] => a
  | arg :: rest' =>
      match rest' with
      | v :: rest'' =>
          if String.eqb arg "-T" then
            parse_args rest'' {| arg_token := v; arg_event := arg_event a;
                arg_personId := arg_personId a; arg_roomId := arg_roomId a |}
          else if String.eqb arg "-E" then
            parse_args rest'' {| arg_token := arg_token a; arg_event := v;
                arg_personId := arg_personId a; arg_roomId := arg_roomId a |}
          else if String.eqb arg "-P" then
            parse_args rest'' {| arg_token := arg_token a; arg_event := arg_event a;
                arg_personId := v; arg_roomId := arg_roomId a |}
          else if String.eqb arg "-R" then
            parse_args rest'' {| arg_token := arg_token a; arg_event := arg_event a;
                arg_personId := arg_personId a; arg_roomId := v |}
          else parse_args rest' a
      | [] => a
      end
  end.

(** The body of the replay loop for a parsed entry: [state[e.personId]]
    creates a default entry when there is none. *)
Definition apply_entry (state : gmap string PersonState) (e : LogEntry)
    : gmap string PersonState :=
  let ps := default PersonState_init (state !! personId e) in
  let ps' :=
    if String.eqb (action e) "ENTER" then {| inside := true; room := roomId e |}
    else if String.eqb (action e) "MOVE" then {| inside := true; room := roomId e |}
    else if String.eqb (action e) "EXIT" then {| inside := false; room := "" |}
    else ps in
  <[personId e := ps']> state.

Definition replay_line (state : gmap string PersonState) (line : string)
    : gmap string PersonState :=
  match parseLogLine line with
  | None => state
  | Some e => apply_entry state e
  end.

Definition replay (lines : list string) : gmap string PersonState :=
  fold_left replay_line lines ∅.

(** Rebuild current gallery state from existing log. *)
Definition rebuild_state (env : Env) (fs : gmap string string) (logPath : string)
    : gmap string PersonState :=
  match ifstream env fs logPath with
  | Some content => replay (read_lines content)
  | None => ∅
  end.

(** [it] is the result of [state.find(personId)]: [None] is [state.end()].
    [currentlyInside = currentlyKnown && it->second.inside] and
    [currentRoom = currentlyInside ? it->second.room : ""]. *)
Definition currentlyInside (it : option PersonState) : bool :=
  match it with
  | Some ps => inside ps
  | None => false
  end.

Definition currentRoom (it : option PersonState) : string :=
  match it with
  | Some ps => if currentlyInside it then room ps else ""
  | None => ""
  end.

(** Why a new event is refused. *)
Inductive Rejection :=
  | AlreadyInside
  | ConcreteRoomRequired
  | NotInside
  | SameRoom
  | RoomMismatch.

(** Enforce gallery rules for the NEW event. *)
Definition enforce_rules (currentlyInside : bool) (currentRoom : string)
    (event roomId : string) : option Rejection :=
  if String.eqb event "ENTER" then
    if currentlyInside then Some AlreadyInside
    else if String.eqb roomId "-" then Some ConcreteRoomRequired
    else None
  else if String.eqb event "MOVE" then
    if negb currentlyInside then Some NotInside
    else if String.eqb roomId currentRoom then Some SameRoom
    else if String.eqb roomId "-" then Some ConcreteRoomRequired
    else None
  else if String.eqb event "EXIT" then
    if negb currentlyInside then Some NotInside
    else if negb (String.eqb roomId "-" || String.eqb roomId currentRoom)
    then Some RoomMismatch
    else None
  else None.

(** The text written to [std::cerr] at each refusal. *)
Definition rejection_message (event personId roomId currentRoom : string)
    (r : Rejection) : string :=
  match r with
  | AlreadyInside =>
      "Error: person '" +:+ personId +:+ "' is already inside (in room '"
        +:+ currentRoom +:+ "'), cannot ENTER again" +:+ nl
  | ConcreteRoomRequired =>
      "Error: " +:+ event +:+ " requires a concrete room, not '-'" +:+ nl
  | NotInside =>
      "Error: person '" +:+ personId +:+ "' is not currently inside, cannot "
        +:+ event +:+ nl
  | SameRoom =>
      "Error: person '" +:+ personId +:+ "' is already in room '" +:+ roomId
        +:+ "', cannot MOVE to the same room" +:+ nl
  | RoomMismatch =>
      "Error: EXIT room '" +:+ roomId +:+ "' does not match current room '"
        +:+ currentRoom +:+ "' for person '" +:+ personId +:+ "'" +:+ nl
  end.

Definition usage (argv0 : string) : string :=
  "Usage: " +:+ argv0 +:+ " -T <token> -E <event> -P <personId> -R <roomId>" +:+ nl
    +:+ "Valid events: ENTER, MOVE, EXIT" +:+ nl
    +:+ "Valid rooms: lobby, gallery1, gallery2, vault, security, storage, -" +:+ nl.

Definition no_args : Args :=
  {| arg_token := ""; arg_event := ""; arg_personId := ""; arg_roomId := "" |}.

Definition main (argv : list string) (fs : gmap string string) (env : Env)
    : Outcome :=
  if negb (length argv =? 9)%nat then
    exit 2 "" (usage (default "" (head argv))) fs
  else
  let a := parse_args (tail argv) no_args in
  let token := arg_token a in
  let event := arg_event a in
  let personId := arg_personId a in
  let roomId := arg_roomId a in
  if bool_decide (token = "") || bool_decide (event = "")
     || bool_decide (personId = "") || bool_decide (roomId = "") then
    exit 2 "" ("Error: All parameters (-T, -E, -P, -R) are required" +:+ nl) fs
  else if negb (validateAction event) then
    exit 2 "" ("Error: Invalid event '" +:+ event
                 +:+ "'. Must be ENTER, MOVE, or EXIT" +:+ nl) fs
  else if negb (validateRoomId roomId) then
    exit 2 "" ("Error: Invalid room ID '" +:+ roomId +:+ "'" +:+ nl) fs
  else if negb (validatePersonId personId) then
    exit 2 "" ("Error: Invalid person ID '" +:+ personId +:+ "'" +:+ nl) fs
  else
  match authenticateToken token Append getBuiltInTokenStore with
  | None => exit 1 "" (printSecureError "authentication failed") fs
  | Some user =>
  let logPath := LOG_FILE_PATH in
  let '(fd, fs1) := openFileAppend env fs logPath in
  if (fd <? 0)%Z then
    exit 1 "" (printSecureError "failed to open log file for appending") fs1
  else if negb (lockFile env fd true) then
    exit 1 "" (printSecureError "failed to acquire exclusive write lock on log file") fs1
  else
  let state := rebuild_state env fs1 logPath in
  let it := state !! personId in
  match enforce_rules (currentlyInside it) (currentRoom it) event roomId with
  | Some r =>
      exit 2 "" (rejection_message event personId roomId (currentRoom it) r) fs1
  | None =>
  let newEntry := {| timestamp := getCurrentTimestamp env;
                     actorId := user_actorId user;
                     personId := personId;
                     action := event;
                     roomId := roomId |} in
  let logLine := formatLogEntry newEntry in
  let '(written, fs2) := write env fs1 logPath logLine in
  if negb (written =? Z.of_nat (String.length logLine))%Z then
    exit 1 "" (printSecureError "failed to write log entry") fs2
  else
    exit 0 ("Successfully appended log entry" +:+ nl) "" fs2
  end
  end.

End LogAppend.

(** ** logread.cpp *)
Module LogRead.

(** The read loop: parsed lines are pushed back, the others skipped. *)
Definition read_entries (lines : list string) : list LogEntry :=
  fold_left (λ entries line,
               match parseLogLine line with
               | Some e => entries ++ [e]
               | None => entries
               end) lines [].

Definition print_entry (e : LogEntry) : string :=
  timestamp e +:+ " | " +:+ actorId e +:+ " | " +:+ personId e +:+ " | "
    +:+ action e +:+ " | " +:+ roomId e +:+ nl.

Fixpoint print_entries (entries : list LogEntry) : string :=
  match entries with
  | [] => ""
  | e :: rest => print_entry e +:+ print_entries rest
  end.

Definition main (argv : list string) (fs : gmap string string) (env : Env)
    : Outcome :=
  if negb (length argv =? 3)%nat || negb (String.eqb (nth 1 argv "") "-T") then
    exit 2 "" ("Usage: " +:+ default "" (head argv) +:+ " -T <token>" +:+ nl) fs
  else
  let token := nth 2 argv "" in
  let logPath := LOG_FILE_PATH in
  match authenticateToken token Read getBuiltInTokenStore with
  | None => exit 1 "" (printSecureError "authentication failed") fs
  | Some user =>
  let '(fd, errno) := openFileRO env fs logPath in
  if (fd <? 0)%Z then
    match errno with
    | Some ENOENT =>
        exit 0 ("No log file found at '" +:+ logPath
                  +:+ "'. Assuming empty gallery state." +:+ nl) "" fs
    | _ => exit 1 "" (printSecureError "failed to open log file for reading") fs
    end
  else
  let out := "Accessing log file..." +:+ nl in
  if negb (lockFile env fd false) then
    exit 1 out (printSecureError "failed to acquire shared read lock on log file") fs
  else
  match ifstream env fs logPath with
  | None =>
      exit 1 out (printSecureError "failed to open input stream for log file") fs
  | Some content =>
  let entries := read_entries (read_lines content) in
  if bool_decide (entries = []) then
    exit 0 (out +:+ "Log file exists but contains no valid entries." +:+ nl) "" fs
  else
    exit 0 (out +:+ "Parsed " +:+ pretty (length entries) +:+ " log entries:" +:+ nl
              +:+ print_entries entries) "" fs
  end
  end.

End LogRead.

(** ** The field rules and the line shape, as the specification words them *)

Definition chars (s : string) : list ascii := list_ascii_of_string s.

Definition DIGITS : list ascii := chars "0123456789".
Definition ID_ALPHABET : list ascii :=
  chars "ABCDEFGHIJKLMNOPQRSTUVWXYZabcdefghijklmnopqrstuvwxyz0123456789_-".
Definition ROOM_WHITELIST : list string :=
  ["lobby"; "gallery1"; "gallery2"; "vault"; "security"; "storage"].

(** timestamp: 1-11 ASCII digits *)
Definition timestamp_rule (ts : string) : Prop :=
  1 ≤ String.length ts ≤ 11 ∧ ∀ c, c ∈ chars ts → c ∈ DIGITS.

(** actorId/personId: 1-32 chars of [A-Za-z0-9_-] *)
Definition id_rule (s : string) : Prop :=
  1 ≤ String.length s ≤ 32 ∧ ∀ c, c ∈ chars s → c ∈ ID_ALPHABET.

(** action: one of ENTER/MOVE/EXIT *)
Definition action_rule (a : string) : Prop :=
  a = "ENTER" ∨ a = "MOVE" ∨ a = "EXIT".

(** roomId: member of the fixed room whitelist or "-" *)
Definition room_rule (r : string) : Prop :=
  r ∈ ROOM_WHITELIST ∨ r = "-".

Definition valid_record (e : LogEntry) : Prop :=
  timestamp_rule (timestamp e) ∧ id_rule (actorId e) ∧ id_rule (personId e)
  ∧ action_rule (action e) ∧ room_rule (roomId e).

(** [body] is [line] without its trailing CR/LF characters. *)
Definition stripped (line body : string) : Prop :=
  ∃ t, line = body +:+ t
       ∧ (∀ c, c ∈ chars t → c = LF ∨ c = CR)
       ∧ (∀ c, back body = Some c → c ≠ LF ∧ c ≠ CR).

(** [parts] are the fields of [body] between the occurrences of [delim]. *)
Definition split_on (delim : ascii) (body : string) (parts : list string) : Prop :=
  parts ≠ [] ∧ body = String.concat (String delim "") parts
  ∧ ∀ p, p ∈ parts → delim ∉ chars p.

(** ** Runs of logappend, by stage *)

(** An environment in which every system call succeeds, at time [t]. *)
Definition env_ok (t : Z) : Env :=
  {| open_append_ok := true; open_ro_refusal := None; flock_ok := true;
     ifstream_ok := true; write_limit := Some 4096; clock := t |}.

(** The request passes the checks made before the token is looked at. *)
Definition well_formed_request (argv : list string) : Prop :=
  let a := LogAppend.parse_args (tail argv) LogAppend.no_args in
  length argv = 9
  ∧ LogAppend.arg_token a ≠ ""
  ∧ validateAction (LogAppend.arg_event a) = true
  ∧ validateRoomId (LogAppend.arg_roomId a) = true
  ∧ validatePersonId (LogAppend.arg_personId a) = true.

(** The run of [LogAppend.main] from the replay on, once the request is well
    formed, the token is authorised and the log is open and locked
    ([main_cases] below proves that this is what [main] does). *)
Definition validate_and_write (env : Env) (fs : gmap string string)
    (user : UserTokenInfo) (event pid rid : string) : Outcome :=
  let log := default "" (fs !! LOG_FILE_PATH) in
  let fs1 := <[LOG_FILE_PATH := log]> fs in
  let it := LogAppend.rebuild_state env fs1 LOG_FILE_PATH !! pid in
  match LogAppend.enforce_rules (LogAppend.currentlyInside it)
          (LogAppend.currentRoom it) event rid with
  | Some r =>
      exit 2 "" (LogAppend.rejection_message event pid rid (LogAppend.currentRoom it) r) fs1
  | None =>
      let line := formatLogEntry
        {| timestamp := LogAppend.getCurrentTimestamp env;
           actorId := user_actorId user; personId := pid;
           action := event; roomId := rid |} in
      match write_limit env with
      | None => exit 1 "" (printSecureError "failed to write log entry") fs1
      | Some k =>
          if (String.length line <=? k)%nat then
            exit 0 ("Successfully appended log entry" +:+ nl) ""
              (<[LOG_FILE_PATH := log +:+ line]> fs)
          else
            exit 1 "" (printSecureError "failed to write log entry")
              (<[LOG_FILE_PATH := log +:+ String.substring 0 k line]> fs)
      end
  end.

(** What a state entry may hold after replay. *)
Definition state_ok (ps : LogAppend.PersonState) : Prop :=
  (LogAppend.inside ps = false → LogAppend.room ps = "")
  ∧ (LogAppend.inside ps = true →
     LogAppend.room ps ∈ ROOM_WHITELIST ∨ LogAppend.room ps = "-").

Definition fields_of (e : LogEntry) : list string :=
  [timestamp e; actorId e; personId e; action e; roomId e].

Definition sample_entry : LogEntry :=
  {| timestamp := "1700000000"; actorId := "guard_alex"; personId := "emp001";
     action := "MOVE"; roomId := "vault" |}.

(** ** Auxiliary notions for the argument loop *)

(** The command line made of (flag, value) pairs. *)
Definition flag_args (pairs : list (string * string)) : list string :=
  pairs ≫= λ p, [p.1; p.2].

(** The value of the last pair whose flag is [flag], or [d] without one. *)
Definition last_value (flag : string) (pairs : list (string * string))
    (d : string) : string :=
  fold_left (λ acc p, if String.eqb p.1 flag then p.2 else acc) pairs d.

(** * Lemmas *)

(** ** Strings: append, back and pop_back *)

Lemma sapp_cons (c : ascii) (s t : string) : String c s +:+ t = String c (s +:+ t).
Proof. done. Qed.

Lemma sapp_nil_r (s : string) : s +:+ "" = s.
Proof. induction s as [|c s IH]; [done|]. by rewrite sapp_cons, IH. Qed.

Lemma sapp_assoc (a b c : string) : (a +:+ b) +:+ c = a +:+ b +:+ c.
Proof. induction a as [|x a IH]; [done|]. by rewrite !sapp_cons, IH. Qed.

Lemma slength_app (a b : string) :
  String.length (a +:+ b) = String.length a + String.length b.
Proof. induction a as [|x a IH]; [done|]. rewrite sapp_cons. cbn. by rewrite IH. Qed.

Lemma chars_app (a b : string) : chars (a +:+ b) = chars a ++ chars b.
Proof.
  unfold chars. induction a as [|x a IH]; [done|].
  rewrite sapp_cons. cbn. by rewrite IH.
Qed.

Lemma back_snoc (s : string) (c : ascii) : back (s +:+ String c "") = Some c.
Proof.
  induction s as [|x s IH]; [done|].
  rewrite sapp_cons. cbn [back]. rewrite IH.
  by destruct (s +:+ String c "").
Qed.

Lemma pop_back_snoc (s : string) (c : ascii) : pop_back (s +:+ String c "") = s.
Proof.
  induction s as [|x s IH]; [done|].
  rewrite sapp_cons. cbn [pop_back]. rewrite IH.
  destruct (s +:+ String c "") eqn:E; [|done].
  by destruct s.
Qed.

Lemma back_pop_back (s : string) (c : ascii) :
  back s = Some c → s = pop_back s +:+ String c "".
Proof.
  induction s as [|x s IH]; [done|].
  destruct s as [|y s]; cbn [back pop_back].
  - by intros [= ->].
  - intros H. rewrite sapp_cons. f_equal. by apply IH.
Qed.

Lemma back_None (s : string) : back s = None → s = "".
Proof.
  induction s as [|x s IH]; [done|].
  destruct s as [|y s]; [done|]. intros H. by specialize (IH H).
Qed.

Lemma back_app (s t : string) : t ≠ "" → back (s +:+ t) = back t.
Proof.
  intros Ht. destruct (back t) as [c|] eqn:E.
  - rewrite (back_pop_back _ _ E), <- sapp_assoc. by rewrite !back_snoc.
  - by apply back_None in E.
Qed.

Lemma all_chars_spec (p : ascii → bool) (s : string) :
  all_chars p s = true ↔ ∀ c, c ∈ chars s → p c = true.
Proof.
  induction s as [|x s IH]; cbn.
  - split; [|done]. intros _ c Hc. by apply elem_of_nil in Hc.
  - destruct (p x) eqn:E.
    + rewrite IH. split.
      * intros H c [->|Hc]%elem_of_cons; auto.
      * intros H c Hc. apply H. by right.
    + split; [done|]. intros H. rewrite <- E. apply H. by left.
Qed.

(** ** [strip_eol] removes exactly the trailing CR/LF characters *)

Lemma is_eol_spec (c : ascii) : is_eol c = true ↔ c = LF ∨ c = CR.
Proof.
  unfold is_eol. rewrite orb_true_iff, !Ascii.eqb_eq. done.
Qed.

Lemma strip_loop_decompose (fuel : nat) (s : string) :
  String.length s ≤ fuel →
  ∃ t, s = strip_loop fuel s +:+ t
       ∧ (∀ c, c ∈ chars t → c = LF ∨ c = CR)
       ∧ (∀ c, back (strip_loop fuel s) = Some c → c ≠ LF ∧ c ≠ CR).
Proof.
  revert s. induction fuel as [|fuel IH]; intros s Hlen.
  - destruct s; [|cbn in Hlen; lia]. exists "". cbn. split_and!; [done| |done].
    intros c Hc. by apply elem_of_nil in Hc.
  - cbn [strip_loop]. destruct (back s) as [c|] eqn:Hb.
    + destruct (is_eol c) eqn:He.
      * pose proof (back_pop_back _ _ Hb) as Hs.
        destruct (IH (pop_back s)) as (t & Ht & Heol & Hend).
        { rewrite Hs, slength_app in Hlen. cbn in Hlen. lia. }
        exists (t +:+ String c ""). split_and!; [| |done].
        -- rewrite <- sapp_assoc, <- Ht. done.
        -- intros d. rewrite chars_app. intros [Hd|Hd]%elem_of_app; [by auto|].
           apply list_elem_of_singleton in Hd as ->. by apply is_eol_spec.
      * exists "". rewrite sapp_nil_r. split_and!; [done| |].
        -- intros d Hd. by apply elem_of_nil in Hd.
        -- intros d Hd. assert (d = c) as -> by congruence.
           split; intros ->; by vm_compute in He.
    + apply back_None in Hb as ->. exists "". split_and!; [done| |done].
      intros d Hd. by apply elem_of_nil in Hd.
Qed.

Lemma strip_eol_stripped (line : string) : stripped line (strip_eol line).
Proof. by apply strip_loop_decompose. Qed.

Lemma strip_loop_app (fuel : nat) (body t : string) :
  String.length t ≤ fuel →
  (∀ c, c ∈ chars t → c = LF ∨ c = CR) →
  (∀ c, back body = Some c → c ≠ LF ∧ c ≠ CR) →
  strip_loop fuel (body +:+ t) = body.
Proof.
  revert t. induction fuel as [|fuel IH]; intros t Hlen Heol Hend.
  - destruct t; [|cbn in Hlen; lia]. by rewrite sapp_nil_r.
  - cbn [strip_loop]. destruct (back t) as [c|] eqn:Hb.
    + pose proof (back_pop_back _ _ Hb) as Ht.
      assert (t ≠ "") as Hne by (by intros ->).
      rewrite back_app, Hb by done.
      assert (is_eol c = true) as ->.
      { apply is_eol_spec, Heol. rewrite Ht, chars_app. apply elem_of_app. right. by left. }
      rewrite Ht, <- sapp_assoc, pop_back_snoc. apply IH; [| |done].
      * rewrite Ht, slength_app in Hlen. cbn in Hlen. lia.
      * intros d Hd. apply Heol. rewrite Ht, chars_app. apply elem_of_app. by left.
    + apply back_None in Hb as ->. rewrite sapp_nil_r.
      destruct (back body) as [c|] eqn:Hc; [|done].
      destruct (is_eol c) eqn:He; [|done].
      apply is_eol_spec in He. destruct (Hend c eq_refl). by destruct He.
Qed.

Lemma stripped_unique (line body : string) :
  stripped line body → strip_eol line = body.
Proof.
  intros (t & -> & Heol & Hend). unfold strip_eol.
  apply strip_loop_app; [|done..]. rewrite slength_app. lia.
Qed.

(** The loop condition is false at the result: the fuel was enough. *)
Lemma strip_eol_fixed (line : string) :
  ∀ c, back (strip_eol line) = Some c → is_eol c = false.
Proof.
  intros c Hc. destruct (strip_eol_stripped line) as (t & _ & _ & Hend).
  destruct (Hend c Hc) as [H1 H2]. destruct (is_eol c) eqn:E; [|done].
  apply is_eol_spec in E. by destruct E.
Qed.

(** ** [split] inverts joining with the delimiter *)

Lemma concat_cons (sep a : string) (l : list string) :
  l ≠ [] → String.concat sep (a :: l) = a +:+ sep +:+ String.concat sep l.
Proof. by destruct l. Qed.

Lemma concat_snoc_app (sep x y : string) (l : list string) :
  String.concat sep (l ++ [x +:+ y]) = String.concat sep (l ++ [x]) +:+ y.
Proof.
  induction l as [|a l IH]; [done|].
  rewrite <- !app_comm_cons, !concat_cons by (by destruct l).
  by rewrite IH, !sapp_assoc.
Qed.

Lemma concat_snoc_empty (sep x : string) (l : list string) :
  String.concat sep ((l ++ [x]) ++ [""]) = String.concat sep (l ++ [x]) +:+ sep.
Proof.
  induction l as [|a l IH].
  - cbn. by rewrite sapp_nil_r.
  - rewrite <- !app_comm_cons, !concat_cons by (by destruct l).
    by rewrite IH, !sapp_assoc.
Qed.

Lemma split_loop_field (f s : string) (d : ascii) (out : list string) (cur : string) :
  d ∉ chars f → split_loop (f +:+ s) d out cur = split_loop s d out (cur +:+ f).
Proof.
  revert cur. induction f as [|c f IH]; intros cur Hd.
  - by rewrite sapp_nil_r.
  - rewrite sapp_cons. cbn [split_loop]. destruct (Ascii.eqb c d) eqn:E.
    + apply Ascii.eqb_eq in E as ->. destruct Hd. by left.
    + rewrite IH.
      * unfold push_back. by rewrite sapp_assoc.
      * intros H. apply Hd. by right.
Qed.

Lemma split_loop_concat (d : ascii) (p : string) (ps out : list string) (cur : string) :
  (∀ q, q ∈ p :: ps → d ∉ chars q) →
  split_loop (String.concat (String d "") (p :: ps)) d out cur
  = out ++ (cur +:+ p) :: ps.
Proof.
  revert p out cur. induction ps as [|q ps IH]; intros p out cur Hnd.
  - cbn [String.concat]. rewrite <- (sapp_nil_r p) at 1.
    rewrite split_loop_field by (apply Hnd; by left). done.
  - rewrite concat_cons by done.
    rewrite split_loop_field by (apply Hnd; by left).
    rewrite sapp_cons. cbn [split_loop]. rewrite Ascii.eqb_refl.
    change ("" +:+ ?x) with x. rewrite IH.
    + by rewrite <- app_assoc.
    + intros r Hr. apply Hnd. by right.
Qed.

Lemma split_loop_joined (s : string) (d : ascii) (out : list string) (cur : string) :
  String.concat (String d "") (split_loop s d out cur)
  = String.concat (String d "") (out ++ [cur]) +:+ s.
Proof.
  revert out cur. induction s as [|c s IH]; intros out cur; cbn [split_loop].
  - by rewrite sapp_nil_r.
  - destruct (Ascii.eqb c d) eqn:E.
    + apply Ascii.eqb_eq in E as ->.
      by rewrite IH, concat_snoc_empty, sapp_assoc.
    + unfold push_back. by rewrite IH, concat_snoc_app, sapp_assoc.
Qed.

Lemma split_loop_fields (s : string) (d : ascii) (out : list string) (cur : string) :
  (∀ p, p ∈ out → d ∉ chars p) → d ∉ chars cur →
  ∀ p, p ∈ split_loop s d out cur → d ∉ chars p.
Proof.
  revert out cur. induction s as [|c s IH]; intros out cur Hout Hcur; cbn [split_loop].
  - intros p [Hp|Hp]%elem_of_app; [by auto|].
    by apply list_elem_of_singleton in Hp as ->.
  - destruct (Ascii.eqb c d) eqn:E.
    + apply IH.
      * intros p [Hp|Hp]%elem_of_app; [by auto|].
        by apply list_elem_of_singleton in Hp as ->.
      * intros H. by apply elem_of_nil in H.
    + apply IH; [done|]. unfold push_back. rewrite chars_app.
      intros [H|H]%elem_of_app; [done|].
      apply list_elem_of_singleton in H as ->. by rewrite Ascii.eqb_refl in E.
Qed.

Lemma split_loop_nonempty (s : string) (d : ascii) (out : list string) (cur : string) :
  split_loop s d out cur ≠ [].
Proof.
  revert out cur. induction s as [|c s IH]; intros out cur; cbn [split_loop].
  - by destruct out.
  - by destruct (Ascii.eqb c d).
Qed.

Lemma split_split_on (d : ascii) (s : string) : split_on d s (split s d).
Proof.
  unfold split. split_and!.
  - apply split_loop_nonempty.
  - by rewrite split_loop_joined.
  - apply split_loop_fields.
    + intros p Hp. by apply elem_of_nil in Hp.
    + intros H. by apply elem_of_nil in H.
Qed.

Lemma split_on_unique (d : ascii) (s : string) (parts : list string) :
  split_on d s parts → split s d = parts.
Proof.
  intros (Hne & -> & Hnd). destruct parts as [|p ps]; [done|].
  unfold split. by rewrite split_loop_concat.
Qed.

(** ** The validators decide the field rules *)

Lemma isdigit_spec (c : ascii) : isdigit (uchar c) = bool_decide (c ∈ DIGITS).
Proof. by destruct c as [[] [] [] [] [] [] [] []]. Qed.

Lemma id_char_spec (c : ascii) : id_char c = bool_decide (c ∈ ID_ALPHABET).
Proof. by destruct c as [[] [] [] [] [] [] [] []]. Qed.

Lemma slength_zero (s : string) : String.length s = 0 ↔ s = "".
Proof. by destruct s. Qed.

Lemma validateTimestamp_spec (ts : string) :
  validateTimestamp ts = true ↔ timestamp_rule ts.
Proof.
  unfold validateTimestamp, timestamp_rule.
  case_bool_decide as Hts; cbn [orb].
  - subst ts. split; [done|]. cbn. lia.
  - assert (String.length ts ≠ 0) by (by rewrite slength_zero).
    destruct (Nat.ltb_spec 11 (String.length ts)).
    + split; [done|]. lia.
    + rewrite all_chars_spec. split.
      * intros Hc. split; [lia|]. intros c Hin.
        specialize (Hc c Hin). rewrite isdigit_spec in Hc.
        by apply bool_decide_eq_true in Hc.
      * intros [_ Hc] c Hin. rewrite isdigit_spec.
        apply bool_decide_eq_true. auto.
Qed.

Lemma validIdLike_spec (s : string) : validIdLike s = true ↔ id_rule s.
Proof.
  unfold validIdLike, id_rule.
  case_bool_decide as Hs; cbn [orb].
  - subst s. split; [done|]. cbn. lia.
  - assert (String.length s ≠ 0) by (by rewrite slength_zero).
    destruct (Nat.ltb_spec 32 (String.length s)).
    + split; [done|]. lia.
    + rewrite all_chars_spec. split.
      * intros Hc. split; [lia|]. intros c Hin.
        specialize (Hc c Hin). rewrite id_char_spec in Hc.
        by apply bool_decide_eq_true in Hc.
      * intros [_ Hc] c Hin. rewrite id_char_spec.
        apply bool_decide_eq_true. auto.
Qed.

Lemma validateAction_spec (a : string) : validateAction a = true ↔ action_rule a.
Proof.
  unfold validateAction, action_rule.
  rewrite !orb_true_iff, !String.eqb_eq. tauto.
Qed.

Lemma validateRoomId_spec (r : string) : validateRoomId r = true ↔ room_rule r.
Proof.
  unfold validateRoomId, room_rule, ROOMS, ROOM_WHITELIST.
  rewrite bool_decide_eq_true. set_unfold. tauto.
Qed.

(** Closed decidable facts are settled by evaluation. *)
Ltac by_compute := refine (bool_decide_unpack _ _); vm_compute; exact I.

(** No field that satisfies its rule holds the delimiter, and a roomId does
    not end in CR or LF. *)
Lemma timestamp_rule_nodelim (ts : string) : timestamp_rule ts → "|"%char ∉ chars ts.
Proof.
  intros [_ H] Hin%H. revert Hin. change ("|"%char ∉ DIGITS). by_compute.
Qed.

Lemma id_rule_nodelim (s : string) : id_rule s → "|"%char ∉ chars s.
Proof.
  intros [_ H] Hin%H. revert Hin. change ("|"%char ∉ ID_ALPHABET). by_compute.
Qed.

Lemma action_rule_nodelim (a : string) : action_rule a → "|"%char ∉ chars a.
Proof. intros [->|[->| ->]]; by_compute. Qed.

Lemma room_rule_nodelim (r : string) : room_rule r → "|"%char ∉ chars r.
Proof.
  unfold room_rule, ROOM_WHITELIST. set_unfold. intros H.
  destruct_or!; subst r; by_compute.
Qed.

Lemma room_rule_back (r : string) (c : ascii) :
  room_rule r → back r = Some c → c ≠ LF ∧ c ≠ CR.
Proof.
  unfold room_rule, ROOM_WHITELIST. set_unfold. intros H.
  destruct_or!; subst r; intros [= <-]; by split.
Qed.

(** ** What [parseLogLine] accepts *)

Lemma parseLogLine_Some (line : string) (e : LogEntry) :
  parseLogLine line = Some e ↔
  ∃ body, stripped line body ∧ split_on "|" body (fields_of e) ∧ valid_record e.
Proof.
  unfold parseLogLine, valid_record, fields_of. split.
  - pose proof (split_split_on "|" (strip_eol line)) as Hsp.
    destruct (split (strip_eol line) "|")
      as [|ts [|aid [|pid [|act [|room [|x rest]]]]]]; try done.
    unfold validatePersonId.
    destruct (validateTimestamp ts) eqn:Hts; [|done].
    destruct (validIdLike aid) eqn:Haid; [|done].
    destruct (validIdLike pid) eqn:Hpid; [|done].
    destruct (validateAction act) eqn:Hact; [|done].
    destruct (validateRoomId room) eqn:Hroom; [|done].
    intros [= <-]. cbn. exists (strip_eol line). split_and!; try done.
    + apply strip_eol_stripped.
    + by apply validateTimestamp_spec.
    + by apply validIdLike_spec.
    + by apply validIdLike_spec.
    + by apply validateAction_spec.
    + by apply validateRoomId_spec.
  - intros (body & Hst & Hsp & Hts & Haid & Hpid & Hact & Hroom).
    rewrite (stripped_unique _ _ Hst), (split_on_unique _ _ _ Hsp).
    unfold validatePersonId.
    apply validateTimestamp_spec in Hts as ->.
    apply validIdLike_spec in Haid as ->.
    apply validIdLike_spec in Hpid as ->.
    apply validateAction_spec in Hact as ->.
    apply validateRoomId_spec in Hroom as ->.
    by destruct e.
Qed.

Lemma room_rule_nonempty (r : string) : room_rule r → r ≠ "".
Proof.
  unfold room_rule, ROOM_WHITELIST. set_unfold. intros H.
  destruct_or!; by subst r.
Qed.

Lemma valid_record_split_on (e : LogEntry) :
  valid_record e →
  split_on "|" (String.concat "|" (fields_of e)) (fields_of e).
Proof.
  intros (Hts & Haid & Hpid & Hact & Hroom). split_and!; [done..|].
  unfold fields_of. intros p Hp. set_unfold in Hp.
  destruct_or!; subst p; try done.
  - by apply timestamp_rule_nodelim.
  - by apply id_rule_nodelim.
  - by apply id_rule_nodelim.
  - by apply action_rule_nodelim.
  - by apply room_rule_nodelim.
Qed.

Lemma valid_record_back (e : LogEntry) (c : ascii) :
  valid_record e →
  back (String.concat "|" (fields_of e)) = Some c → c ≠ LF ∧ c ≠ CR.
Proof.
  intros (_ & _ & _ & _ & Hroom). unfold fields_of. cbn [String.concat].
  rewrite <- !sapp_assoc, back_app by (by apply room_rule_nonempty).
  by apply room_rule_back.
Qed.

(** A line made of valid fields and any run of CR/LF parses to the record. *)
Lemma parse_joined_fields (e : LogEntry) (t : string) :
  valid_record e →
  (∀ c, c ∈ chars t → c = LF ∨ c = CR) →
  parseLogLine (String.concat "|" (fields_of e) +:+ t) = Some e.
Proof.
  intros He Ht. apply parseLogLine_Some.
  exists (String.concat "|" (fields_of e)). split_and!; [|by apply valid_record_split_on|done].
  exists t. split_and!; [done..|]. intros c. by apply valid_record_back.
Qed.

Lemma formatLogEntry_joined (e : LogEntry) :
  formatLogEntry e = String.concat "|" (fields_of e) +:+ nl.
Proof.
  unfold formatLogEntry, fields_of, nl. cbn [String.concat].
  by rewrite !sapp_assoc.
Qed.

Lemma parseLogLine_None (line : string) :
  parseLogLine line = None ↔
  ∃ body parts, stripped line body ∧ split_on "|" body parts
    ∧ (length parts ≠ 5
       ∨ ∃ ts aid pid act room, parts = [ts; aid; pid; act; room]
           ∧ (¬ timestamp_rule ts ∨ ¬ id_rule aid ∨ ¬ id_rule pid
              ∨ ¬ action_rule act ∨ ¬ room_rule room)).
Proof.
  split.
  - intros Hnone. exists (strip_eol line), (split (strip_eol line) "|").
    split_and!; [apply strip_eol_stripped|apply split_split_on|].
    unfold parseLogLine, validatePersonId in Hnone.
    destruct (split (strip_eol line) "|")
      as [|ts [|aid [|pid [|act [|room [|x rest]]]]]]; cbn [length]; try (left; lia).
    right. exists ts, aid, pid, act, room. split; [done|].
    rewrite <- validateTimestamp_spec, <- !validIdLike_spec,
      <- validateAction_spec, <- validateRoomId_spec.
    destruct (validateTimestamp ts); [|by left].
    destruct (validIdLike aid); [|by right; left].
    destruct (validIdLike pid); [|by right; right; left].
    destruct (validateAction act); [|by right; right; right; left].
    destruct (validateRoomId room); [done|by right; right; right; right].
  - intros (body & parts & Hst & Hsp & Hbad).
    unfold parseLogLine, validatePersonId.
    rewrite (stripped_unique _ _ Hst), (split_on_unique _ _ _ Hsp).
    destruct Hbad as [Hlen|(ts & aid & pid & act & room & -> & Hbad)].
    + by destruct parts as [|ts [|aid [|pid [|act [|room [|x rest]]]]]].
    + rewrite <- validateTimestamp_spec, <- !validIdLike_spec,
        <- validateAction_spec, <- validateRoomId_spec in Hbad.
      destruct (validateTimestamp ts); [|done].
      destruct (validIdLike aid); [|done].
      destruct (validIdLike pid); [|done].
      destruct (validateAction act); [|done].
      destruct (validateRoomId room); [|done].
      by destruct_or!.
Qed.

(** ** Replay *)

Lemma apply_entry_other (st : gmap string LogAppend.PersonState) (e : LogEntry)
    (pid : string) :
  personId e ≠ pid → LogAppend.apply_entry st e !! pid = st !! pid.
Proof. intros Hne. unfold LogAppend.apply_entry. by rewrite lookup_insert_ne. Qed.

Lemma fold_apply_entry_other (es : list LogEntry)
    (st : gmap string LogAppend.PersonState) (pid : string) :
  (∀ e, e ∈ es → personId e ≠ pid) →
  fold_left LogAppend.apply_entry es st !! pid = st !! pid.
Proof.
  revert st. induction es as [|e es IH]; intros st Hes; [done|].
  cbn [fold_left]. rewrite IH.
  - apply apply_entry_other, Hes. by left.
  - intros e' He'. apply Hes. by right.
Qed.

Lemma replay_line_fold (lines : list string) (st : gmap string LogAppend.PersonState) :
  fold_left LogAppend.replay_line lines st
  = fold_left LogAppend.apply_entry (omap parseLogLine lines) st.
Proof.
  revert st. induction lines as [|line lines IH]; intros st; [done|].
  cbn [fold_left omap list_omap]. unfold LogAppend.replay_line at 2.
  destruct (parseLogLine line); by rewrite IH.
Qed.

Lemma read_entries_fold (lines : list string) (acc : list LogEntry) :
  fold_left (λ entries line,
               match parseLogLine line with
               | Some e => entries ++ [e]
               | None => entries
               end) lines acc
  = acc ++ omap parseLogLine lines.
Proof.
  revert acc. induction lines as [|line lines IH]; intros acc.
  - by rewrite app_nil_r.
  - cbn [fold_left omap list_omap]. rewrite IH.
    destruct (parseLogLine line); [|done]. by rewrite <- app_assoc.
Qed.

Lemma read_entries_omap (lines : list string) :
  LogRead.read_entries lines = omap parseLogLine lines.
Proof. unfold LogRead.read_entries. by rewrite read_entries_fold. Qed.

Lemma omap_skip (before after : list string) (line : string) :
  parseLogLine line = None →
  omap parseLogLine (before ++ line :: after) = omap parseLogLine (before ++ after).
Proof.
  intros Hnone. rewrite !omap_app. cbn [omap list_omap]. by rewrite Hnone.
Qed.

Lemma apply_entry_ok (st : gmap string LogAppend.PersonState) (e : LogEntry) :
  room_rule (roomId e) →
  map_Forall (λ _, state_ok) st →
  map_Forall (λ _, state_ok) (LogAppend.apply_entry st e).
Proof.
  intros Hroom Hst. unfold LogAppend.apply_entry.
  apply map_Forall_insert_2; [|done].
  repeat case_match; try (by split).
  destruct (st !! personId e) as [ps|] eqn:E; cbn.
  - by apply (Hst _ _ E).
  - by split.
Qed.

Lemma replay_ok (lines : list string) (st : gmap string LogAppend.PersonState) :
  map_Forall (λ _, state_ok) st →
  map_Forall (λ _, state_ok) (fold_left LogAppend.replay_line lines st).
Proof.
  revert st. induction lines as [|line lines IH]; intros st Hst; [done|].
  cbn [fold_left]. apply IH. unfold LogAppend.replay_line.
  destruct (parseLogLine line) as [e|] eqn:E; [|done].
  apply apply_entry_ok; [|done].
  apply parseLogLine_Some in E as (_ & _ & _ & He). apply He.
Qed.

(** Validity of a concrete record, by running the validators. *)
Lemma valid_record_by_validators (e : LogEntry) :
  validateTimestamp (timestamp e) && validIdLike (actorId e)
    && validatePersonId (personId e) && validateAction (action e)
    && validateRoomId (roomId e) = true →
  valid_record e.
Proof.
  rewrite !andb_true_iff. intros ((((Hts & Haid) & Hpid) & Hact) & Hroom).
  split_and!.
  - by apply validateTimestamp_spec.
  - by apply validIdLike_spec.
  - by apply validIdLike_spec.
  - by apply validateAction_spec.
  - by apply validateRoomId_spec.
Qed.

(** * The claims *)

(** C4. Round trip: for every record whose five fields satisfy their field
    rules, parsing the formatted line succeeds and gives back the record,
    equal in all five fields. *)
Theorem parse_format_roundtrip (e : LogEntry) :
  valid_record e → parseLogLine (formatLogEntry e) = Some e.
Proof.
  intros He. rewrite formatLogEntry_joined. apply parse_joined_fields; [done|].
  intros c Hc. left. by apply list_elem_of_singleton in Hc.
Qed.

Lemma parse_format_roundtrip_witness :
  valid_record sample_entry
  ∧ parseLogLine (formatLogEntry sample_entry) = Some sample_entry.
Proof.
  assert (valid_record sample_entry) as He.
  { apply valid_record_by_validators. vm_compute. reflexivity. }
  split; [exact He|]. exact (parse_format_roundtrip sample_entry He).
Defined.

(** C5. The parser rejects a line exactly when, once its trailing CR/LF
    characters are stripped, splitting on the bar does not give five parts or
    some part breaks its field rule; a rejected line is skipped by the
    replay of logappend and by the read loop of logread, which carry on with
    the lines that follow as if it were absent. *)
Theorem malformed_lines_rejected_and_skipped (line : string) :
  (parseLogLine line = None ↔
   ∃ body parts, stripped line body ∧ split_on "|" body parts
     ∧ (length parts ≠ 5
        ∨ ∃ ts aid pid act room, parts = [ts; aid; pid; act; room]
            ∧ (¬ timestamp_rule ts ∨ ¬ id_rule aid ∨ ¬ id_rule pid
               ∨ ¬ action_rule act ∨ ¬ room_rule room)))
  ∧ (parseLogLine line = None →
     ∀ before after : list string,
       LogAppend.replay (before ++ line :: after) = LogAppend.replay (before ++ after)
       ∧ LogRead.read_entries (before ++ line :: after)
         = LogRead.read_entries (before ++ after)).
Proof.
  split; [apply parseLogLine_None|].
  intros Hnone before after. split.
  - unfold LogAppend.replay. by rewrite !replay_line_fold, omap_skip.
  - by rewrite !read_entries_omap, omap_skip.
Qed.

Lemma malformed_lines_rejected_and_skipped_witness :
  parseLogLine "1700000000|guard_alex|emp001|ENTER" = None
  ∧ LogRead.read_entries
      ["1700000000|guard_alex|emp001|ENTER|lobby";
       "1700000000|guard_alex|emp001|ENTER";
       "1700000009|guard_alex|emp001|EXIT|-"]
    = LogRead.read_entries
      ["1700000000|guard_alex|emp001|ENTER|lobby";
       "1700000009|guard_alex|emp001|EXIT|-"].
Proof.
  assert (parseLogLine "1700000000|guard_alex|emp001|ENTER" = None) as Hnone
    by (vm_compute; reflexivity).
  split; [exact Hnone|].
  exact (proj2 (proj2 (malformed_lines_rejected_and_skipped _) Hnone
                  ["1700000000|guard_alex|emp001|ENTER|lobby"]
                  ["1700000009|guard_alex|emp001|EXIT|-"])).
Defined.

(** C7. Replay is a left fold of the per-record update over the parsed
    records in file order. After it, a person's entry is the effect of the
    last record that mentions the person: ENTER and MOVE leave
    (inside = true, room = roomId), EXIT leaves (inside = false, room = "");
    a person no record mentions has no entry, which the validator reads as
    outside with an empty room. *)
Theorem replay_last_record (es : list LogEntry) (pid : string) :
  (∀ lines, LogAppend.replay lines
            = fold_left LogAppend.apply_entry (omap parseLogLine lines) ∅)
  ∧ (∀ before e after,
       es = before ++ e :: after → personId e = pid →
       (∀ e', e' ∈ after → personId e' ≠ pid) →
       let st := fold_left LogAppend.apply_entry es ∅ in
       (action e = "ENTER" ∨ action e = "MOVE" →
        st !! pid = Some {| LogAppend.inside := true; LogAppend.room := roomId e |})
       ∧ (action e = "EXIT" →
          st !! pid = Some {| LogAppend.inside := false; LogAppend.room := "" |}))
  ∧ ((∀ e, e ∈ es → personId e ≠ pid) →
     let it := fold_left LogAppend.apply_entry es ∅ !! pid in
     it = None ∧ LogAppend.currentlyInside it = false ∧ LogAppend.currentRoom it = "").
Proof.
  split_and!.
  - intros lines. apply replay_line_fold.
  - intros before e after -> Hpid Hafter st. subst st.
    rewrite fold_left_app. cbn [fold_left].
    rewrite fold_apply_entry_other by done. subst pid.
    unfold LogAppend.apply_entry. rewrite lookup_insert_eq. split.
    + by intros [-> | ->].
    + by intros ->.
  - intros Hes it. subst it. by rewrite fold_apply_entry_other.
Qed.

Lemma replay_last_record_witness :
  let es :=
    [ {| timestamp := "1"; actorId := "guard_alex"; personId := "emp001";
         action := "ENTER"; roomId := "lobby" |};
      {| timestamp := "2"; actorId := "guard_alex"; personId := "emp001";
         action := "MOVE"; roomId := "vault" |};
      {| timestamp := "3"; actorId := "guard_alex"; personId := "emp002";
         action := "ENTER"; roomId := "lobby" |} ] in
  fold_left LogAppend.apply_entry es ∅ !! "emp001"
    = Some {| LogAppend.inside := true; LogAppend.room := "vault" |}
  ∧ fold_left LogAppend.apply_entry es ∅ !! "emp009" = None.
Proof.
  intros es. split.
  - refine (proj1 (proj1 (proj2 (replay_last_record es "emp001"))
      [ {| timestamp := "1"; actorId := "guard_alex"; personId := "emp001";
           action := "ENTER"; roomId := "lobby" |} ]
      {| timestamp := "2"; actorId := "guard_alex"; personId := "emp001";
         action := "MOVE"; roomId := "vault" |}
      [ {| timestamp := "3"; actorId := "guard_alex"; personId := "emp002";
           action := "ENTER"; roomId := "lobby" |} ]
      eq_refl eq_refl _) (or_intror eq_refl)).
    intros e' He'. apply list_elem_of_singleton in He' as ->. discriminate.
  - refine (proj1 (proj2 (proj2 (replay_last_record es "emp009")) _)).
    intros e He. subst es. set_unfold in He. destruct_or!; subst e; discriminate.
Defined.

(** C10. After replaying any lines, every person's entry satisfies: if
    inside is false the room is the empty string, and if inside is true the
    room is one of the six whitelisted names or "-". Replay applies no
    cross-field check: a parseable ENTER line with roomId "-" leaves the
    person inside a room named "-". *)
Theorem replay_state_invariant (lines : list string) (pid : string)
    (ps : LogAppend.PersonState) :
  (LogAppend.replay lines !! pid = Some ps →
   (LogAppend.inside ps = false → LogAppend.room ps = "")
   ∧ (LogAppend.inside ps = true →
      LogAppend.room ps ∈ ROOM_WHITELIST ∨ LogAppend.room ps = "-"))
  ∧ LogAppend.replay ["1700000000|guard_alex|emp001|ENTER|-"] !! "emp001"
    = Some {| LogAppend.inside := true; LogAppend.room := "-" |}.
Proof.
  split.
  - intros Hps. by apply (replay_ok lines ∅ (map_Forall_empty _) pid ps).
  - vm_compute. reflexivity.
Qed.

Lemma replay_state_invariant_witness :
  let lines := ["1700000000|guard_alex|emp001|ENTER|lobby"; "garbage";
                "1700000005|guard_alex|emp001|MOVE|vault";
                "1700000009|guard_alex|emp002|EXIT|-"] in
  (LogAppend.replay lines !! "emp001"
     = Some {| LogAppend.inside := true; LogAppend.room := "vault" |}
   ∧ ("vault" ∈ ROOM_WHITELIST ∨ "vault" = "-"))
  ∧ (LogAppend.replay lines !! "emp002"
       = Some {| LogAppend.inside := false; LogAppend.room := "" |}
     ∧ LogAppend.room {| LogAppend.inside := false; LogAppend.room := "" |} = "").
Proof.
  intros lines.
  assert (LogAppend.replay lines !! "emp001"
          = Some {| LogAppend.inside := true; LogAppend.room := "vault" |}) as H1
    by (vm_compute; reflexivity).
  assert (LogAppend.replay lines !! "emp002"
          = Some {| LogAppend.inside := false; LogAppend.room := "" |}) as H2
    by (vm_compute; reflexivity).
  split; (split; [assumption|]).
  - exact (proj2 (proj1 (replay_state_invariant lines "emp001" _) H1) eq_refl).
  - exact (proj1 (proj1 (replay_state_invariant lines "emp002" _) H2) eq_refl).
Defined.

(** ** Authentication *)

Lemma uchar_range (c : ascii) : (0 ≤ uchar c < 256)%Z.
Proof.
  unfold uchar. pose proof (N_ascii_bounded c). lia.
Qed.

Lemma uchar_inj (x y : ascii) : uchar x = uchar y → x = y.
Proof.
  unfold uchar. intros H%N2Z.inj.
  by rewrite <- (ascii_N_embedding x), <- (ascii_N_embedding y), H.
Qed.

Lemma log2_byte (a : Z) : (0 ≤ a < 256)%Z → (Z.log2 a < 8)%Z.
Proof.
  intros [H0 H1]. destruct (decide (a = 0%Z)) as [->|Hne]; [done|].
  apply Z.log2_lt_pow2; lia.
Qed.

Lemma lxor_byte (a b : Z) :
  (0 ≤ a < 256)%Z → (0 ≤ b < 256)%Z → (0 ≤ Z.lxor a b < 256)%Z.
Proof.
  intros Ha Hb.
  assert (0 ≤ Z.lxor a b)%Z as Hnn by (apply Z.lxor_nonneg; lia).
  split; [done|].
  destruct (decide (Z.lxor a b = 0%Z)) as [->|Hne]; [done|].
  apply (Z.log2_lt_pow2 _ 8); [lia|].
  pose proof (Z.log2_lxor a b ltac:(lia) ltac:(lia)).
  pose proof (log2_byte a Ha). pose proof (log2_byte b Hb). lia.
Qed.

Lemma xor_byte_zero (x y : ascii) :
  (Z.lxor (uchar x) (uchar y) mod 256 = 0)%Z ↔ x = y.
Proof.
  rewrite Z.mod_small by (apply lxor_byte; apply uchar_range).
  rewrite Z.lxor_eq_0_iff. split; [apply uchar_inj|by intros ->].
Qed.

Lemma xor_fold_zero (a b : string) (diff : Z) :
  String.length a = String.length b →
  xor_fold a b diff = 0%Z ↔ diff = 0%Z ∧ a = b.
Proof.
  revert b diff. induction a as [|x a IH]; intros [|y b] diff Hlen; try done.
  - cbn [xor_fold]. split; [by intros ->|by intros [-> _]].
  - cbn [xor_fold]. rewrite IH by (cbn in Hlen; lia).
    rewrite Z.lor_eq_0_iff, xor_byte_zero. split.
    + by intros [[-> ->] ->].
    + by intros [-> [= -> ->]].
Qed.

Lemma constantTimeEquals_spec (a b : string) :
  constantTimeEquals a b = true ↔ a = b.
Proof.
  unfold constantTimeEquals.
  destruct (Nat.eqb_spec (String.length a) (String.length b)) as [Hlen|Hlen]; cbn [negb].
  - rewrite Z.eqb_eq, xor_fold_zero by done. split; [by intros [_ ->]|by intros ->].
  - split; [done|]. by intros ->.
Qed.

Lemma scan_store_no_match (h : string) (op : Operation) (store : list UserTokenInfo) :
  Forall (λ u, h ≠ tokenHash u) store → scan_store h op store = None.
Proof.
  induction 1 as [|u store Hu _ IH]; [done|]. cbn [scan_store].
  destruct (constantTimeEquals h (tokenHash u)) eqn:E; [|done].
  by apply constantTimeEquals_spec in E.
Qed.

Lemma scan_store_first_match (h : string) (op : Operation)
    (pre post : list UserTokenInfo) (u : UserTokenInfo) :
  Forall (λ v, h ≠ tokenHash v) pre → h = tokenHash u →
  scan_store h op (pre ++ u :: post)
  = if permissionAllows (permission u) op then Some u else None.
Proof.
  intros Hpre Hu. induction Hpre as [|v pre Hv _ IH]; cbn [scan_store app].
  - by rewrite (proj2 (constantTimeEquals_spec _ _) Hu).
  - destruct (constantTimeEquals h (tokenHash v)) eqn:E; [|done].
    by apply constantTimeEquals_spec in E.
Qed.

(** C8. Authentication indistinguishability: a secret whose hash matches no
    stored credential and a secret whose hash matches a credential (the one
    the scan meets first) lacking the permission for the requested
    operation give the same result, the null pointer. *)
Theorem authentication_indistinguishable (store : list UserTokenInfo)
    (op : Operation) (t1 t2 : string) :
  Forall (λ u, sha256Hex t1 ≠ tokenHash u) store →
  (∃ pre u post, store = pre ++ u :: post
     ∧ Forall (λ v, sha256Hex t2 ≠ tokenHash v) pre
     ∧ sha256Hex t2 = tokenHash u
     ∧ permissionAllows (permission u) op = false) →
  authenticateToken t1 op store = authenticateToken t2 op store
  ∧ authenticateToken t2 op store = None.
Proof.
  intros H1 (pre & u & post & -> & Hpre & Hu & Hperm).
  assert (authenticateToken t1 op (pre ++ u :: post) = None) as ->.
  { unfold authenticateToken. case_bool_decide; [done|].
    by apply scan_store_no_match. }
  assert (authenticateToken t2 op (pre ++ u :: post) = None) as ->; [|done].
  unfold authenticateToken. case_bool_decide; [done|].
  by rewrite scan_store_first_match, Hperm.
Qed.

Lemma authentication_indistinguishable_witness :
  authenticateToken "guess" Append BUILT_IN_STORE
  = authenticateToken "kim-read-456" Append BUILT_IN_STORE
  ∧ authenticateToken "kim-read-456" Append BUILT_IN_STORE = None.
Proof.
  apply (authentication_indistinguishable BUILT_IN_STORE Append "guess" "kim-read-456").
  - by_compute.
  - exists [ {| user_actorId := "guard_alex"; permission := AppendOnly;
               tokenHash := "e45703ec0bf6e9b29fec9e4819f33c7c8a302d93eccef0f7bddd57c80c93f5a0" |} ],
      {| user_actorId := "manager_kim"; permission := ReadOnly;
         tokenHash := "12ae512c7eeda74af4e625e1fe2888645c434586d24b75ea3302d3d75d121130" |},
      [ {| user_actorId := "admin_lee"; permission := ReadWrite;
           tokenHash := "f929608275fa3fa111110583af685764f71a1ddc67dd2af65284e35eceb583ad" |} ].
    split_and!; [reflexivity|by_compute|vm_compute; reflexivity|reflexivity].
Defined.

(** ** The transition validator *)



(** ** The executables *)

Lemma substring_full (s : string) : String.substring 0 (String.length s) s = s.
Proof. induction s as [|c s IH]; [done|]. cbn. by rewrite IH. Qed.

Lemma authenticateToken_nonempty (token : string) (op : Operation)
    (store : list UserTokenInfo) (user : UserTokenInfo) :
  authenticateToken token op store = Some user → token ≠ "".
Proof. unfold authenticateToken. by case_bool_decide. Qed.

Lemma validateAction_nonempty (s : string) : validateAction s = true → s ≠ "".
Proof. intros H ->. vm_compute in H. discriminate. Qed.

Lemma validateRoomId_nonempty (s : string) : validateRoomId s = true → s ≠ "".
Proof. intros H ->. vm_compute in H. discriminate. Qed.

Lemma validatePersonId_nonempty (s : string) : validatePersonId s = true → s ≠ "".
Proof. intros H ->. vm_compute in H. discriminate. Qed.

Lemma main_cases (argv : list string) (fs : gmap string string) (env : Env) :
  let a := LogAppend.parse_args (tail argv) LogAppend.no_args in
  let o := LogAppend.main argv fs env in
  (¬ well_formed_request argv ∧ exit_code o = 2%Z ∧ fs_after o = fs)
  ∨ (well_formed_request argv
     ∧ match authenticateToken (LogAppend.arg_token a) Append getBuiltInTokenStore with
       | None => o = exit 1 "" (printSecureError "authentication failed") fs
       | Some user =>
           if negb (open_append_ok env) then
             o = exit 1 "" (printSecureError "failed to open log file for appending") fs
           else if negb (flock_ok env) then
             o = exit 1 ""
                   (printSecureError "failed to acquire exclusive write lock on log file")
                   (<[LOG_FILE_PATH := default "" (fs !! LOG_FILE_PATH)]> fs)
           else
             o = validate_and_write env fs user (LogAppend.arg_event a)
                   (LogAppend.arg_personId a) (LogAppend.arg_roomId a)
       end).
Proof.
  intros a o. subst o. unfold well_formed_request, LogAppend.main. fold a.
  destruct (Nat.eqb_spec (length argv) 9) as [Hlen|Hlen]; cbn [negb];
    [|left; split_and!; [tauto|done..]].
  cbv zeta. fold a.
  case_bool_decide as Htok; cbn [orb]; [left; split_and!; [tauto|done..]|].
  case_bool_decide as Hev; cbn [orb];
    [left; split_and!; [|done..]; rewrite Hev; by intros (_ & _ & ? & _)|].
  case_bool_decide as Hp; cbn [orb];
    [left; split_and!; [|done..]; rewrite Hp; by intros (_ & _ & _ & _ & ?)|].
  case_bool_decide as Hr; cbn [orb];
    [left; split_and!; [|done..]; rewrite Hr; intros (_ & _ & _ & H & _);
     vm_compute in H; discriminate|].
  destruct (validateAction (LogAppend.arg_event a)) eqn:Hact; cbn [negb];
    [|left; split_and!; [|done..]; by intros (_ & _ & ? & _)].
  destruct (validateRoomId (LogAppend.arg_roomId a)) eqn:Hroom; cbn [negb];
    [|left; split_and!; [|done..]; by intros (_ & _ & _ & ? & _)].
  destruct (validatePersonId (LogAppend.arg_personId a)) eqn:Hpid; cbn [negb];
    [|left; split_and!; [|done..]; by intros (_ & _ & _ & _ & ?)].
  right. split; [done|].
  destruct (authenticateToken _ _ _) as [user|]; [|done].
  unfold openFileAppend, lockFile, write, validate_and_write.
  destruct (open_append_ok env); cbn [negb Z.ltb Z.compare]; [|done].
  set (fs1 := match fs !! LOG_FILE_PATH with
              | Some _ => fs
              | None => <[LOG_FILE_PATH := ""]> fs
              end).
  assert (fs1 = <[LOG_FILE_PATH := default "" (fs !! LOG_FILE_PATH)]> fs) as ->.
  { subst fs1. destruct (fs !! LOG_FILE_PATH) eqn:E; [|done].
    cbn. by rewrite insert_id. }
  destruct (flock_ok env); cbn [negb]; [|done].
  cbv zeta.
  destruct (LogAppend.enforce_rules _ _ _ _) as [r|]; [done|].
  set (line := formatLogEntry _).
  destruct (write_limit env) as [k|].
  2: { destruct (Z.eqb_spec (-1) (Z.of_nat (String.length line))); [lia|done]. }
  rewrite lookup_insert_eq. cbn [default]. rewrite insert_insert_eq.
  destruct (Nat.leb_spec (String.length line) k) as [Hk|Hk].
  - rewrite Nat.min_r by done. by rewrite Z.eqb_refl, substring_full.
  - rewrite Nat.min_l by lia.
    destruct (Z.eqb_spec (Z.of_nat k) (Z.of_nat (String.length line))); [lia|done].
Qed.

Lemma formatLogEntry_nonempty (e : LogEntry) (log : string) :
  log +:+ formatLogEntry e ≠ log.
Proof.
  intros H. apply (f_equal String.length) in H.
  rewrite slength_app, formatLogEntry_joined, slength_app in H. cbn in H. lia.
Qed.

(** Runs in which the log can be read. Once the request is well formed, the
    token authorised and the log opened, locked and readable, logappend judges
    the event against the state replayed from the whole current log. A refused event ends with status 2
    and the message of its specific refusal, and the log keeps its content.
    When the write is not cut short, the log becomes its old content followed
    by the formatted record if and only if the validator accepts. *)
Theorem append_iff_valid (argv : list string) (fs : gmap string string)
    (env : Env) (user : UserTokenInfo) :
  let a := LogAppend.parse_args (tail argv) LogAppend.no_args in
  let event := LogAppend.arg_event a in
  let pid := LogAppend.arg_personId a in
  let rid := LogAppend.arg_roomId a in
  let log := default "" (fs !! LOG_FILE_PATH) in
  let it := LogAppend.replay (read_lines log) !! pid in
  let verdict := LogAppend.enforce_rules (LogAppend.currentlyInside it)
                   (LogAppend.currentRoom it) event rid in
  let record := {| timestamp := LogAppend.getCurrentTimestamp env;
                   actorId := user_actorId user; personId := pid;
                   action := event; roomId := rid |} in
  let o := LogAppend.main argv fs env in
  let log' := default "" (fs_after o !! LOG_FILE_PATH) in
  length argv = 9 →
  validateAction event = true → validateRoomId rid = true →
  validatePersonId pid = true →
  authenticateToken (LogAppend.arg_token a) Append getBuiltInTokenStore = Some user →
  open_append_ok env = true → flock_ok env = true → ifstream_ok env = true →
  (∀ r, verdict = Some r →
     exit_code o = 2%Z
     ∧ stderr o = LogAppend.rejection_message event pid rid (LogAppend.currentRoom it) r
     ∧ log' = log
     ∧ fs_after o = <[LOG_FILE_PATH := log]> fs)
  ∧ ((∃ k, write_limit env = Some k ∧ String.length (formatLogEntry record) ≤ k) →
     (log' = log +:+ formatLogEntry record ↔ verdict = None)
     ∧ (verdict = None →
        exit_code o = 0%Z
        ∧ fs_after o = <[LOG_FILE_PATH := log +:+ formatLogEntry record]> fs)).
Proof.
  intros a event pid rid log it verdict record o log'
    Hlen Hact Hroom Hpid Hauth Hopen Hlock Hstream.
  assert (o = validate_and_write env fs user event pid rid) as Ho.
  { destruct (main_cases argv fs env) as [[Hnwf _]|[_ Hcase]].
    - destruct Hnwf. split_and!; try done.
      by apply (authenticateToken_nonempty _ _ _ _ Hauth).
    - fold a in Hcase. rewrite Hauth, Hopen, Hlock in Hcase. exact Hcase. }
  unfold validate_and_write, LogAppend.rebuild_state, ifstream in Ho.
  rewrite Hstream, lookup_insert_eq in Ho. cbv zeta in Ho.
  fold log it verdict record in Ho. subst log'. split.
  - intros r Hr. rewrite Hr in Ho. rewrite Ho. cbn [exit exit_code stderr fs_after].
    by rewrite lookup_insert_eq.
  - intros (k & Hk & Hle). rewrite Hk in Ho.
    rewrite (proj2 (Nat.leb_le _ _) Hle) in Ho.
    destruct verdict as [r|] eqn:Hv.
    + rewrite Ho. cbn [exit exit_code stderr fs_after].
      rewrite lookup_insert_eq. cbn [default]. split; [|done].
      split; [|done]. intros H. symmetry in H. by apply formatLogEntry_nonempty in H.
    + rewrite Ho. cbn [exit exit_code stderr fs_after].
      rewrite lookup_insert_eq. done.
Qed.

Lemma append_iff_valid_witness :
  let log := "1700000000|guard_alex|emp001|ENTER|lobby" +:+ nl in
  let refused := LogAppend.main
    ["./logappend"; "-T"; "alex-write-123"; "-E"; "ENTER"; "-P"; "emp001"; "-R"; "gallery1"]
    {[ LOG_FILE_PATH := log ]} (env_ok 1700000060) in
  let accepted := LogAppend.main
    ["./logappend"; "-T"; "alex-write-123"; "-E"; "MOVE"; "-P"; "emp001"; "-R"; "gallery1"]
    {[ LOG_FILE_PATH := log ]} (env_ok 1700000060) in
  (exit_code refused = 2%Z
   ∧ stderr refused
     = "Error: person 'emp001' is already inside (in room 'lobby'), cannot ENTER again" +:+ nl
   ∧ default "" (fs_after refused !! LOG_FILE_PATH) = log)
  ∧ (exit_code accepted = 0%Z
     ∧ fs_after accepted
       = <[LOG_FILE_PATH := log +:+ "1700000060|guard_alex|emp001|MOVE|gallery1" +:+ nl]>
           {[ LOG_FILE_PATH := log ]}).
Proof.
  intros log refused accepted. split.
  - destruct (proj1 (append_iff_valid
      ["./logappend"; "-T"; "alex-write-123"; "-E"; "ENTER"; "-P"; "emp001"; "-R"; "gallery1"]
      {[ LOG_FILE_PATH := log ]} (env_ok 1700000060)
      {| user_actorId := "guard_alex"; permission := AppendOnly;
         tokenHash := "e45703ec0bf6e9b29fec9e4819f33c7c8a302d93eccef0f7bddd57c80c93f5a0" |}
      eq_refl ltac:(vm_compute; reflexivity) ltac:(vm_compute; reflexivity)
      ltac:(vm_compute; reflexivity) ltac:(vm_compute; reflexivity)
      eq_refl eq_refl eq_refl)
      LogAppend.AlreadyInside ltac:(vm_compute; reflexivity)) as (H1 & H2 & H3 & _).
    split_and!; [exact H1|exact H2|exact H3].
  - destruct (proj2 (append_iff_valid
      ["./logappend"; "-T"; "alex-write-123"; "-E"; "MOVE"; "-P"; "emp001"; "-R"; "gallery1"]
      {[ LOG_FILE_PATH := log ]} (env_ok 1700000060)
      {| user_actorId := "guard_alex"; permission := AppendOnly;
         tokenHash := "e45703ec0bf6e9b29fec9e4819f33c7c8a302d93eccef0f7bddd57c80c93f5a0" |}
      eq_refl ltac:(vm_compute; reflexivity) ltac:(vm_compute; reflexivity)
      ltac:(vm_compute; reflexivity) ltac:(vm_compute; reflexivity)
      eq_refl eq_refl eq_refl)
      ltac:(exists 4096; split; [reflexivity|vm_compute; lia])) as (_ & Hacc).
    destruct (Hacc ltac:(vm_compute; reflexivity)) as (H1 & H2).
    split; [exact H1|]. etrans; [exact H2|]. vm_compute. reflexivity.
Defined.

(** Runs in which the log cannot be read. [if (in.is_open())] has no else
    branch: when the input stream does not open, the replay is skipped, the
    state stays empty and the run goes on to the rules and the write. An event
    that the rules accept for a person who is outside is then appended,
    whatever the log holds. *)
Lemma unreadable_log_skips_replay (argv : list string) (fs : gmap string string)
    (env : Env) (user : UserTokenInfo) (k : nat) :
  let a := LogAppend.parse_args (tail argv) LogAppend.no_args in
  let log := default "" (fs !! LOG_FILE_PATH) in
  let line := formatLogEntry
    {| timestamp := LogAppend.getCurrentTimestamp env;
       actorId := user_actorId user; personId := LogAppend.arg_personId a;
       action := LogAppend.arg_event a; roomId := LogAppend.arg_roomId a |} in
  let o := LogAppend.main argv fs env in
  well_formed_request argv →
  authenticateToken (LogAppend.arg_token a) Append getBuiltInTokenStore = Some user →
  open_append_ok env = true → flock_ok env = true → ifstream_ok env = false →
  LogAppend.enforce_rules false "" (LogAppend.arg_event a) (LogAppend.arg_roomId a) = None →
  write_limit env = Some k → String.length line ≤ k →
  exit_code o = 0%Z ∧ fs_after o = <[LOG_FILE_PATH := log +:+ line]> fs.
Proof.
  intros a log line o Hwf Hauth Hopen Hlock Hstream Hok Hk Hle.
  destruct (main_cases argv fs env) as [(Hnwf & _)|[_ Hcase]]; [done|].
  fold a o in Hcase. rewrite Hauth, Hopen, Hlock in Hcase. cbn [negb] in Hcase.
  unfold validate_and_write, LogAppend.rebuild_state, ifstream in Hcase.
  rewrite Hstream, lookup_empty in Hcase.
  cbn [LogAppend.currentlyInside LogAppend.currentRoom] in Hcase.
  rewrite Hok, Hk in Hcase. fold log line in Hcase.
  rewrite (proj2 (Nat.leb_le _ _) Hle) in Hcase. by rewrite Hcase.
Qed.

(** C1. The failing run: the log holds ENTER of emp001 into the lobby and
    can be opened for appending and locked, but not opened for reading (a
    file with write permission only). The state replayed from the log would
    refuse a second ENTER as already inside; logappend skips the replay,
    appends the second ENTER and ends with status 0. On the same file
    logread treats the stream that does not open as an error. *)
Theorem unreadable_log_double_enter :
  let log := "1700000000|guard_alex|emp001|ENTER|lobby" +:+ nl in
  let env := {| open_append_ok := true; open_ro_refusal := None; flock_ok := true;
                ifstream_ok := false; write_limit := Some 4096;
                clock := 1700000060 |} in
  let o := LogAppend.main
    ["./logappend"; "-T"; "alex-write-123"; "-E"; "ENTER"; "-P"; "emp001"; "-R"; "gallery1"]
    {[ LOG_FILE_PATH := log ]} env in
  let it := LogAppend.replay (read_lines log) !! "emp001" in
  LogAppend.enforce_rules (LogAppend.currentlyInside it) (LogAppend.currentRoom it)
    "ENTER" "gallery1" = Some LogAppend.AlreadyInside
  ∧ exit_code o = 0%Z
  ∧ stdout o = "Successfully appended log entry" +:+ nl
  ∧ fs_after o !! LOG_FILE_PATH
    = Some (log +:+ "1700000060|guard_alex|emp001|ENTER|gallery1" +:+ nl)
  ∧ exit_code (LogRead.main ["./logread"; "-T"; "kim-read-456"]
                 {[ LOG_FILE_PATH := log ]} env) = 1%Z
  ∧ stderr (LogRead.main ["./logread"; "-T"; "kim-read-456"]
              {[ LOG_FILE_PATH := log ]} env)
    = "[error] failed to open input stream for log file" +:+ nl.
Proof. split_and!; vm_compute; reflexivity. Qed.

(** C3, as the code has it. A request with a malformed action, room or
    person identifier (or a wrong argument count) ends with status 2 and the
    file system untouched. Any run that ends with status 2, a refusal by the
    transition rules included, leaves every existing file as it was and
    writes nothing; the log is opened with create-if-absent before the
    replay, so a log file that did not exist may now exist, empty. *)
Theorem validation_errors_write_nothing (argv : list string)
    (fs : gmap string string) (env : Env) :
  let a := LogAppend.parse_args (tail argv) LogAppend.no_args in
  let o := LogAppend.main argv fs env in
  ((length argv ≠ 9 ∨ validateAction (LogAppend.arg_event a) = false
    ∨ validateRoomId (LogAppend.arg_roomId a) = false
    ∨ validatePersonId (LogAppend.arg_personId a) = false) →
   exit_code o = 2%Z ∧ fs_after o = fs)
  ∧ (exit_code o = 2%Z →
     fs_after o = fs
     ∨ (fs !! LOG_FILE_PATH = None ∧ fs_after o = <[LOG_FILE_PATH := ""]> fs)).
Proof.
  intros a o.
  destruct (main_cases argv fs env) as [(Hnwf & Hcode & Hfs)|[Hwf Hcase]];
    fold o in Hcode, Hfs || fold a o in Hcase.
  - split; [done|]. intros _. by left.
  - split.
    + destruct Hwf as (Hlen & _ & Hact & Hroom & Hpid). fold a in Hact, Hroom, Hpid.
      intros [?|[?|[?|?]]]; congruence.
    + destruct (authenticateToken _ _ _) as [user|]; [|by rewrite Hcase].
      destruct (open_append_ok env); cbn [negb] in Hcase; [|by rewrite Hcase].
      destruct (flock_ok env); cbn [negb] in Hcase; [|by rewrite Hcase].
      rewrite Hcase. unfold validate_and_write.
      destruct (LogAppend.enforce_rules _ _ _ _) as [r|].
      * intros _. cbn [exit fs_after].
        destruct (fs !! LOG_FILE_PATH) as [log|] eqn:E; cbn [default].
        -- left. by apply insert_id.
        -- right. done.
      * destruct (write_limit env) as [k|]; [|done].
        by destruct (String.length _ <=? k)%nat.
Qed.

Lemma validation_errors_write_nothing_witness :
  let fs0 : gmap string string :=
    {[ LOG_FILE_PATH := "1700000000|guard_alex|emp001|ENTER|lobby" +:+ nl ]} in
  let malformed := LogAppend.main
    ["./logappend"; "-T"; "alex-write-123"; "-E"; "LEAVE"; "-P"; "emp001"; "-R"; "lobby"]
    ∅ (env_ok 1700000060) in
  let refused := LogAppend.main
    ["./logappend"; "-T"; "alex-write-123"; "-E"; "ENTER"; "-P"; "emp001"; "-R"; "vault"]
    fs0 (env_ok 1700000060) in
  (exit_code malformed = 2%Z ∧ fs_after malformed = ∅)
  ∧ (fs_after refused = fs0
     ∨ (fs0 !! LOG_FILE_PATH = None ∧ fs_after refused = <[LOG_FILE_PATH := ""]> fs0)).
Proof.
  intros fs0 malformed refused. split.
  - apply (proj1 (validation_errors_write_nothing
      ["./logappend"; "-T"; "alex-write-123"; "-E"; "LEAVE"; "-P"; "emp001"; "-R"; "lobby"]
      ∅ (env_ok 1700000060))).
    right. left. vm_compute. reflexivity.
  - apply (proj2 (validation_errors_write_nothing
      ["./logappend"; "-T"; "alex-write-123"; "-E"; "ENTER"; "-P"; "emp001"; "-R"; "vault"]
      fs0 (env_ok 1700000060))).
    vm_compute. reflexivity.
Defined.

(** C3, as stated, fails: with no log file yet, MOVE for a person who never
    entered is refused with status 2, and the run leaves an empty log file
    behind. *)
Lemma validation_error_creates_log_file :
  let o := LogAppend.main
    ["./logappend"; "-T"; "alex-write-123"; "-E"; "MOVE"; "-P"; "emp002"; "-R"; "lobby"]
    ∅ (env_ok 1700000060) in
  exit_code o = 2%Z
  ∧ stderr o = "Error: person 'emp002' is not currently inside, cannot MOVE" +:+ nl
  ∧ (∅ : gmap string string) !! LOG_FILE_PATH = None
  ∧ fs_after o !! LOG_FILE_PATH = Some ""
  ∧ fs_after o ≠ ∅.
Proof.
  split_and!; try (vm_compute; reflexivity).
  intros H. apply (f_equal (λ m : gmap string string, m !! LOG_FILE_PATH)) in H.
  vm_compute in H. discriminate.
Qed.

Lemma enforce_rules_sentinel (inside : bool) (current event : string) :
  event = "ENTER" ∨ event = "MOVE" →
  is_Some (LogAppend.enforce_rules inside current event "-").
Proof.
  intros Hev. unfold LogAppend.enforce_rules.
  destruct (String.eqb_spec "-" current), inside, Hev as [-> | ->]; cbn; eauto.
Qed.

(** C6, as the code has it. The append path never writes a record whose
    action is ENTER or MOVE and whose roomId is "-": such a request ends with
    a non-zero status and the log keeps its content. The parser checks each
    field on its own, and accepts a line whose action is ENTER or MOVE and
    whose roomId is "-" when the other fields satisfy their rules. *)
Theorem sentinel_room_refused_on_append_only (argv : list string)
    (fs : gmap string string) (env : Env) (e : LogEntry) :
  let a := LogAppend.parse_args (tail argv) LogAppend.no_args in
  let o := LogAppend.main argv fs env in
  ((LogAppend.arg_event a = "ENTER" ∨ LogAppend.arg_event a = "MOVE") →
   LogAppend.arg_roomId a = "-" →
   exit_code o ≠ 0%Z
   ∧ default "" (fs_after o !! LOG_FILE_PATH) = default "" (fs !! LOG_FILE_PATH))
  ∧ ((action e = "ENTER" ∨ action e = "MOVE") → roomId e = "-" →
     timestamp_rule (timestamp e) → id_rule (actorId e) → id_rule (personId e) →
     parseLogLine (String.concat "|" (fields_of e)) = Some e
     ∧ parseLogLine (formatLogEntry e) = Some e).
Proof.
  intros a o. split.
  - intros Hev Hr.
    destruct (main_cases argv fs env) as [(Hnwf & Hcode & Hfs)|[Hwf Hcase]];
      fold o in Hcode, Hfs || fold a o in Hcase.
    + rewrite Hcode, Hfs. done.
    + destruct (authenticateToken _ _ _) as [user|]; [|by rewrite Hcase].
      destruct (open_append_ok env); cbn [negb] in Hcase; [|by rewrite Hcase].
      destruct (flock_ok env); cbn [negb] in Hcase.
      2: { rewrite Hcase. cbn [exit exit_code fs_after].
           by rewrite lookup_insert_eq. }
      rewrite Hcase. unfold validate_and_write. rewrite Hr.
      destruct (enforce_rules_sentinel
        (LogAppend.currentlyInside
           (LogAppend.rebuild_state env
              (<[LOG_FILE_PATH := default "" (fs !! LOG_FILE_PATH)]> fs)
              LOG_FILE_PATH !! LogAppend.arg_personId a))
        (LogAppend.currentRoom
           (LogAppend.rebuild_state env
              (<[LOG_FILE_PATH := default "" (fs !! LOG_FILE_PATH)]> fs)
              LOG_FILE_PATH !! LogAppend.arg_personId a))
        (LogAppend.arg_event a) Hev) as [r ->].
      cbn [exit exit_code fs_after]. by rewrite lookup_insert_eq.
  - intros Hact Hroom Hts Haid Hpid.
    assert (valid_record e) as He.
    { split_and!; try done.
      - destruct Hact as [-> | ->]; [by left|by right; left].
      - right. done. }
    split.
    + rewrite <- (sapp_nil_r (String.concat "|" (fields_of e))).
      apply parse_joined_fields; [done|]. intros c Hc. by apply elem_of_nil in Hc.
    + rewrite formatLogEntry_joined. apply parse_joined_fields; [done|].
      intros c Hc. left. by apply list_elem_of_singleton in Hc.
Qed.

Lemma sentinel_room_refused_on_append_only_witness :
  let o := LogAppend.main
    ["./logappend"; "-T"; "alex-write-123"; "-E"; "ENTER"; "-P"; "emp001"; "-R"; "-"]
    ∅ (env_ok 1700000060) in
  let e := {| timestamp := "1700000000"; actorId := "guard_alex";
              personId := "emp001"; action := "MOVE"; roomId := "-" |} in
  (exit_code o ≠ 0%Z
   ∧ default "" (fs_after o !! LOG_FILE_PATH)
     = default "" ((∅ : gmap string string) !! LOG_FILE_PATH))
  ∧ (parseLogLine (String.concat "|" (fields_of e)) = Some e
     ∧ parseLogLine (formatLogEntry e) = Some e).
Proof.
  intros o e.
  destruct (sentinel_room_refused_on_append_only
    ["./logappend"; "-T"; "alex-write-123"; "-E"; "ENTER"; "-P"; "emp001"; "-R"; "-"]
    ∅ (env_ok 1700000060) e) as [Happend Hparse].
  split.
  - apply Happend; [left|]; vm_compute; reflexivity.
  - apply Hparse.
    + right. reflexivity.
    + reflexivity.
    + apply validateTimestamp_spec. vm_compute. reflexivity.
    + apply validIdLike_spec. vm_compute. reflexivity.
    + apply validIdLike_spec. vm_compute. reflexivity.
Defined.

(** C6, as stated, fails for the parser: a line with action ENTER and roomId
    "-" is accepted, and replay then holds the person inside a room "-". *)
Lemma parser_accepts_enter_with_sentinel :
  parseLogLine "1700000000|guard_alex|emp001|ENTER|-"
  = Some {| timestamp := "1700000000"; actorId := "guard_alex";
            personId := "emp001"; action := "ENTER"; roomId := "-" |}
  ∧ LogRead.read_entries ["1700000000|guard_alex|emp001|ENTER|-"]
    = [ {| timestamp := "1700000000"; actorId := "guard_alex";
           personId := "emp001"; action := "ENTER"; roomId := "-" |} ].
Proof. split; vm_compute; reflexivity. Qed.

(** C9, as the code has it. With a token authorised to read, logread never
    changes the file system. When the open is not refused and the log file
    does not exist (the open reports ENOENT) it ends with status 0 and
    reports no record. When the operating system refuses the open for any
    other reason it ends with status 1 and prints nothing on standard
    output, whether the file exists or not; so does it, after the header
    line, when the lock or the input stream cannot be had. Otherwise it ends
    with status 0 and prints exactly the records of the lines that the parser
    accepts, in file order, skipping the others. *)
Theorem logread_returns_valid_records (prog token : string)
    (fs : gmap string string) (env : Env) :
  is_Some (authenticateToken token Read getBuiltInTokenStore) →
  let o := LogRead.main [prog; "-T"; token] fs env in
  fs_after o = fs
  ∧ (fs !! LOG_FILE_PATH = None → open_ro_refusal env = None →
     exit_code o = 0%Z ∧ stderr o = ""
     ∧ stdout o = "No log file found at 'logs/gallery.log'. Assuming empty gallery state." +:+ nl)
  ∧ (is_Some (open_ro_refusal env) →
     exit_code o = 1%Z ∧ stdout o = ""
     ∧ stderr o = "[error] failed to open log file for reading" +:+ nl)
  ∧ (∀ content, fs !! LOG_FILE_PATH = Some content → open_ro_refusal env = None →
     (flock_ok env = false →
      exit_code o = 1%Z ∧ stdout o = "Accessing log file..." +:+ nl
      ∧ stderr o = "[error] failed to acquire shared read lock on log file" +:+ nl)
     ∧ (flock_ok env = true → ifstream_ok env = false →
        exit_code o = 1%Z ∧ stdout o = "Accessing log file..." +:+ nl
        ∧ stderr o = "[error] failed to open input stream for log file" +:+ nl)
     ∧ (flock_ok env = true → ifstream_ok env = true →
        let records := omap parseLogLine (read_lines content) in
        exit_code o = 0%Z ∧ stderr o = ""
        ∧ stdout o =
            ("Accessing log file..." +:+ nl)
              +:+ (if bool_decide (records = []) then
                     "Log file exists but contains no valid entries." +:+ nl
                   else
                     "Parsed " +:+ pretty (length records) +:+ " log entries:" +:+ nl
                       +:+ LogRead.print_entries records))).
Proof.
  intros [user Hauth] o. subst o. unfold LogRead.main.
  cbn [length Nat.eqb negb nth String.eqb Ascii.eqb Bool.eqb orb]. cbv zeta.
  rewrite Hauth. unfold openFileRO, lockFile, ifstream. split_and!.
  - destruct (open_ro_refusal env) as [[]|]; cbn [Z.ltb Z.compare refusal_errno];
      [done..|].
    destruct (fs !! LOG_FILE_PATH); cbn [Z.ltb Z.compare]; [|done].
    destruct (flock_ok env); cbn [negb]; [|done].
    destruct (ifstream_ok env); [|done].
    by case_bool_decide.
  - by intros -> ->.
  - intros [[] ->]; done.
  - intros content -> ->. cbn [Z.ltb Z.compare]. split_and!.
    + by intros ->.
    + by intros -> ->.
    + intros -> ->. cbn [negb]. rewrite read_entries_omap. cbv zeta.
      by case_bool_decide.
Qed.

Lemma logread_returns_valid_records_witness :
  let missing := LogRead.main ["./logread"; "-T"; "lee-admin-789"] ∅ (env_ok 1700000120) in
  let o := LogRead.main ["./logread"; "-T"; "kim-read-456"]
    {[ LOG_FILE_PATH :=
         "1700000000|guard_alex|emp001|ENTER|lobby" +:+ nl
           +:+ "not a record" +:+ nl
           +:+ "1700000060|guard_alex|emp001|EXIT|-" +:+ nl ]}
    (env_ok 1700000120) in
  (exit_code missing = 0%Z ∧ fs_after missing = ∅)
  ∧ exit_code o = 0%Z ∧ stderr o = ""
  ∧ stdout o = "Accessing log file..." +:+ nl
      +:+ "Parsed 2 log entries:" +:+ nl
      +:+ "1700000000 | guard_alex | emp001 | ENTER | lobby" +:+ nl
      +:+ "1700000060 | guard_alex | emp001 | EXIT | -" +:+ nl.
Proof.
  intros missing o. split.
  - destruct (logread_returns_valid_records "./logread" "lee-admin-789" ∅
      (env_ok 1700000120) ltac:(vm_compute; eexists; reflexivity))
      as (Hfs & Hmissing & _).
    destruct (Hmissing eq_refl eq_refl) as (Hcode & _). split; [exact Hcode|exact Hfs].
  - pose proof (proj2 (proj2 (proj2 (logread_returns_valid_records
      "./logread" "kim-read-456"
      {[ LOG_FILE_PATH :=
           "1700000000|guard_alex|emp001|ENTER|lobby" +:+ nl
             +:+ "not a record" +:+ nl
             +:+ "1700000060|guard_alex|emp001|EXIT|-" +:+ nl ]}
      (env_ok 1700000120)
      ltac:(vm_compute; eexists; reflexivity))))
      _ ltac:(vm_compute; reflexivity) eq_refl) as (_ & _ & Hread).
    destruct (Hread eq_refl eq_refl) as (H1 & H2 & H3).
    split_and!; [exact H1|exact H2|].
    etrans; [exact H3|]. vm_compute. reflexivity.
Defined.

(** C9, as stated, fails: with no log file and a path whose directory part
    is not a directory, the open fails with ENOTDIR and logread, given a
    token authorised to read, ends with status 1 and an error message
    instead of the empty result. *)
Lemma logread_missing_log_is_an_error :
  let env := {| open_append_ok := true; open_ro_refusal := Some NotADirectory;
                flock_ok := true; ifstream_ok := true;
                write_limit := Some 4096; clock := 1700000120 |} in
  let o := LogRead.main ["./logread"; "-T"; "kim-read-456"] ∅ env in
  (∅ : gmap string string) !! LOG_FILE_PATH = None
  ∧ is_Some (authenticateToken "kim-read-456" Read getBuiltInTokenStore)
  ∧ exit_code o = 1%Z
  ∧ stdout o = ""
  ∧ stderr o = "[error] failed to open log file for reading" +:+ nl.
Proof.
  split_and!; try (vm_compute; reflexivity). vm_compute. eexists. reflexivity.
Qed.

(** ** Checks of the model on known values *)

Example sha256_constants :
  take 2 SHA256.K = [0x428a2f98; 0x71374491]%Z
  ∧ last SHA256.K = Some 0xc67178f2%Z ∧ length SHA256.K = 64
  ∧ SHA256.H0 !! 0 = Some 0x6a09e667%Z ∧ last SHA256.H0 = Some 0x5be0cd19%Z.
Proof. vm_compute. done. Qed.

Example sha256Hex_abc :
  sha256Hex "abc" = "ba7816bf8f01cfea414140de5dae2223b00361a396177a9cb410ff61f20015ad".
Proof. vm_compute. reflexivity. Qed.

Example sha256Hex_empty :
  sha256Hex "" = "e3b0c44298fc1c149afbf4c8996fb92427ae41e4649b934ca495991b7852b855".
Proof. vm_compute. reflexivity. Qed.

Example sha256Hex_two_blocks :
  sha256Hex "abcdbcdecdefdefgefghfghighijhijkijkljklmklmnlmnomnopnopq"
  = "248d6a61d20638b8e5c026930c3e6039a33ce45964ff2167f6ecedd419db06c1".
Proof. vm_compute. reflexivity. Qed.

(** The tokens of the test runner are the ones the built-in store holds. *)
Example test_tokens_authenticate :
  user_actorId <$> authenticateToken "alex-write-123" Append BUILT_IN_STORE = Some "guard_alex"
  ∧ user_actorId <$> authenticateToken "kim-read-456" Read BUILT_IN_STORE = Some "manager_kim"
  ∧ user_actorId <$> authenticateToken "lee-admin-789" Read BUILT_IN_STORE = Some "admin_lee"
  ∧ user_actorId <$> authenticateToken "lee-admin-789" Append BUILT_IN_STORE = Some "admin_lee".
Proof. vm_compute. done. Qed.

Example read_lines_examples :
  read_lines ("a" +:+ nl +:+ nl +:+ "b") = ["a"; ""; "b"]
  ∧ read_lines ("a" +:+ nl +:+ nl +:+ "b" +:+ nl) = ["a"; ""; "b"]
  ∧ read_lines "" = [] ∧ read_lines nl = [""].
Proof. vm_compute. done. Qed.

Example parseLogLine_examples :
  parseLogLine ("1700000000|guard_alex|emp001|ENTER|lobby" +:+ String CR "")
    = Some {| timestamp := "1700000000"; actorId := "guard_alex";
              personId := "emp001"; action := "ENTER"; roomId := "lobby" |}
  ∧ parseLogLine "1700000000|guard_alex|emp001|ENTER|lobby|" = None
  ∧ parseLogLine "1700000000|guard alex|emp001|ENTER|lobby" = None
  ∧ parseLogLine "170000000000|guard_alex|emp001|ENTER|lobby" = None
  ∧ parseLogLine "1700000000|guard_alex|emp001|enter|lobby" = None
  ∧ parseLogLine "1700000000|guard_alex|emp001|ENTER|cellar" = None.
Proof. vm_compute. done. Qed.

(** The happy path of the test runner: ENTER, MOVE, EXIT, then a read. *)
Example happy_path :
  let run t ev r fs := fs_after (LogAppend.main
    ["./logappend"; "-T"; "alex-write-123"; "-E"; ev; "-P"; "emp001"; "-R"; r]
    fs (env_ok t)) in
  let fs3 := run 1700000002%Z "EXIT" "-"
               (run 1700000001%Z "MOVE" "gallery1"
                  (run 1700000000%Z "ENTER" "lobby" ∅)) in
  fs3 !! LOG_FILE_PATH
    = Some ("1700000000|guard_alex|emp001|ENTER|lobby" +:+ nl
              +:+ "1700000001|guard_alex|emp001|MOVE|gallery1" +:+ nl
              +:+ "1700000002|guard_alex|emp001|EXIT|-" +:+ nl)
  ∧ stdout (LogRead.main ["./logread"; "-T"; "kim-read-456"] fs3 (env_ok 1700000003))
    = "Accessing log file..." +:+ nl +:+ "Parsed 3 log entries:" +:+ nl
        +:+ "1700000000 | guard_alex | emp001 | ENTER | lobby" +:+ nl
        +:+ "1700000001 | guard_alex | emp001 | MOVE | gallery1" +:+ nl
        +:+ "1700000002 | guard_alex | emp001 | EXIT | -" +:+ nl.
Proof. vm_compute. done. Qed.

(** * Further properties of the code *)

(** ** Hashing and comparison *)

(** [constantTimeEquals] decides equality of strings: the length check and
    the folded XOR accumulator are both passed exactly by equal strings. *)
Theorem constantTimeEquals_decides_equality (a b : string) :
  constantTimeEquals a b = true ↔ a = b.
Proof. apply constantTimeEquals_spec. Qed.

Lemma land_nibble (v : Z) : (0 ≤ Z.land v 0x0F < 16)%Z.
Proof.
  change 0x0F%Z with (Z.ones 4). rewrite Z.land_ones by lia.
  apply Z.mod_pos_bound. lia.
Qed.

Lemma hex_char_in_HEX (i : Z) : (0 ≤ i < 16)%Z → hex_char i ∈ chars HEX.
Proof.
  intros Hi.
  assert (i = 0 ∨ i = 1 ∨ i = 2 ∨ i = 3 ∨ i = 4 ∨ i = 5 ∨ i = 6 ∨ i = 7
          ∨ i = 8 ∨ i = 9 ∨ i = 10 ∨ i = 11 ∨ i = 12 ∨ i = 13 ∨ i = 14
          ∨ i = 15)%Z as Hcases by lia.
  destruct_or!; subst i; by_compute.
Qed.

Lemma toHex_length (bytes : list Z) :
  String.length (toHex bytes) = 2 * length bytes.
Proof. induction bytes as [|b bs IH]; [done|]. cbn [toHex String.length length]. lia. Qed.

Lemma toHex_chars (bytes : list Z) (c : ascii) :
  c ∈ chars (toHex bytes) → c ∈ chars HEX.
Proof.
  induction bytes as [|b bs IH]; cbn [toHex].
  - intros H. by apply elem_of_nil in H.
  - unfold chars at 1. cbn [list_ascii_of_string]. fold (chars (toHex bs)).
    intros [->|[->|H]%elem_of_cons]%elem_of_cons; [| |by apply IH];
      apply hex_char_in_HEX, land_nibble.
Qed.

Lemma be_bytes_length (n : nat) (x : Z) : length (SHA256.be_bytes n x) = n.
Proof. induction n as [|n IH]; [done|]. cbn [SHA256.be_bytes length]. by rewrite IH. Qed.

Lemma round_length (s : list Z) (kw : Z * Z) :
  length s = 8 → length (SHA256.round s kw) = 8.
Proof.
  intros Hs. destruct s as [|a [|b [|c [|d [|e [|f [|g [|h [|x s]]]]]]]]];
    try discriminate Hs. done.
Qed.

Lemma compress_length (h block : list Z) :
  length h = 8 → length (SHA256.compress h block) = 8.
Proof.
  intros Hh. unfold SHA256.compress. rewrite length_zip_with, Hh.
  assert (∀ kws s, length s = 8 → length (fold_left SHA256.round kws s) = 8) as Hfold.
  { induction kws as [|kw kws IH]; intros s Hs; [done|].
    cbn [fold_left]. by apply IH, round_length. }
  rewrite Hfold by done. done.
Qed.

Lemma blocks_length (n : nat) (bs h : list Z) :
  length h = 8 → length (SHA256.blocks n bs h) = 8.
Proof.
  revert bs h. induction n as [|n IH]; intros bs h Hh; [done|].
  cbn [SHA256.blocks]. by apply IH, compress_length.
Qed.

Lemma digest_length (msg : list Z) : length (SHA256.digest msg) = 32.
Proof.
  unfold SHA256.digest.
  assert (∀ ws : list Z, length (mjoin (SHA256.be_bytes 4 <$> ws)) = 4 * length ws) as Hjoin.
  { induction ws as [|w ws IH]; [done|].
    change (mjoin (SHA256.be_bytes 4 <$> w :: ws))
      with (SHA256.be_bytes 4 w ++ mjoin (SHA256.be_bytes 4 <$> ws)).
    rewrite length_app, be_bytes_length, IH. cbn [length]. lia. }
  rewrite Hjoin, blocks_length; [done|]. by vm_compute.
Qed.

(** The hash of any token is 64 characters long, all of them lower-case
    hexadecimal digits; [toHex] in general gives two such characters per
    byte. A stored hash of another length therefore matches no token. *)
Theorem sha256Hex_shape (s : string) :
  String.length (sha256Hex s) = 64
  ∧ (∀ c, c ∈ chars (sha256Hex s) → c ∈ chars "0123456789abcdef")
  ∧ (∀ bytes, String.length (toHex bytes) = 2 * length bytes)
  ∧ (∀ stored, String.length stored ≠ 64 → constantTimeEquals (sha256Hex s) stored = false).
Proof.
  assert (String.length (sha256Hex s) = 64) as Hlen.
  { unfold sha256Hex. rewrite toHex_length, length_take, digest_length. done. }
  split_and!; [done| |apply toHex_length|].
  - intros c. unfold sha256Hex. apply toHex_chars.
  - intros stored Hstored. unfold constantTimeEquals. rewrite Hlen.
    destruct (Nat.eqb_spec 64 (String.length stored)); [congruence|done].
Qed.

(** ** Authentication *)

Lemma scan_store_Some (h : string) (op : Operation) (store : list UserTokenInfo)
    (u : UserTokenInfo) :
  scan_store h op store = Some u ↔
  ∃ pre post, store = pre ++ u :: post
    ∧ Forall (λ v, h ≠ tokenHash v) pre
    ∧ h = tokenHash u
    ∧ permissionAllows (permission u) op = true.
Proof.
  split.
  - induction store as [|v store IH]; [done|]. cbn [scan_store].
    destruct (constantTimeEquals h (tokenHash v)) eqn:E.
    + apply constantTimeEquals_spec in E.
      destruct (permissionAllows (permission v) op) eqn:Hp; [|done].
      intros [= ->]. exists [], store. by split_and!.
    + intros (pre & post & -> & Hpre & Hu & Hp)%IH.
      exists (v :: pre), post. split_and!; try done.
      constructor; [|done]. intros Hv.
      apply constantTimeEquals_spec in Hv. congruence.
  - intros (pre & post & -> & Hpre & Hu & Hp).
    by rewrite scan_store_first_match, Hp.
Qed.

(** [authenticateToken] succeeds with a user exactly when the token is not
    empty and that user is the first credential of the store whose hash is
    the hash of the token, and the user's permission allows the operation.
    In particular the empty token never authenticates, even against a store
    that holds the hash of the empty string. *)
Theorem authenticateToken_success (token : string) (op : Operation)
    (store : list UserTokenInfo) (u : UserTokenInfo) :
  (authenticateToken token op store = Some u ↔
   token ≠ ""
   ∧ ∃ pre post, store = pre ++ u :: post
       ∧ Forall (λ v, sha256Hex token ≠ tokenHash v) pre
       ∧ sha256Hex token = tokenHash u
       ∧ permissionAllows (permission u) op = true)
  ∧ authenticateToken "" op store = None.
Proof.
  split; [|done]. unfold authenticateToken. case_bool_decide as Ht.
  - split; [done|]. by intros [? _].
  - rewrite scan_store_Some. split; [by intros ?|by intros [_ ?]].
Qed.

Lemma builtin_store_members (u : UserTokenInfo) :
  u ∈ BUILT_IN_STORE →
  (u = {| user_actorId := "guard_alex"; permission := AppendOnly;
          tokenHash := "e45703ec0bf6e9b29fec9e4819f33c7c8a302d93eccef0f7bddd57c80c93f5a0" |}
   ∨ u = {| user_actorId := "manager_kim"; permission := ReadOnly;
            tokenHash := "12ae512c7eeda74af4e625e1fe2888645c434586d24b75ea3302d3d75d121130" |}
   ∨ u = {| user_actorId := "admin_lee"; permission := ReadWrite;
            tokenHash := "f929608275fa3fa111110583af685764f71a1ddc67dd2af65284e35eceb583ad" |}).
Proof. unfold BUILT_IN_STORE. set_unfold. tauto. Qed.

(** In the built-in store no two credentials share a hash, so the order of
    the scan does not matter: a token authenticates as [u] exactly when it
    is not empty, [u] is in the store, the hash of the token is the stored
    hash of [u], and the permission of [u] allows the operation. Every
    actor of the store has an identifier that the log parser accepts. *)
Theorem builtin_store_authentication (token : string) (op : Operation)
    (u : UserTokenInfo) :
  (authenticateToken token op getBuiltInTokenStore = Some u ↔
   token ≠ "" ∧ u ∈ BUILT_IN_STORE ∧ sha256Hex token = tokenHash u
   ∧ permissionAllows (permission u) op = true)
  ∧ (u ∈ BUILT_IN_STORE → validIdLike (user_actorId u) = true).
Proof.
  split.
  - unfold getBuiltInTokenStore, authenticateToken. case_bool_decide as Ht.
    { split; [done|]. by intros [? _]. }
    rewrite scan_store_Some. split.
    + intros (pre & post & Hst & _ & Hh & Hp). split_and!; try done.
      rewrite Hst. apply elem_of_app. right. by left.
    + intros (_ & Hu & Hh & Hp).
      apply builtin_store_members in Hu. destruct_or!; subst u.
      * exists [], (tail BUILT_IN_STORE). by split_and!.
      * exists (take 1 BUILT_IN_STORE), (drop 2 BUILT_IN_STORE). split_and!; try done.
        rewrite Hh. by_compute.
      * exists (take 2 BUILT_IN_STORE), []. split_and!; try done.
        rewrite Hh. by_compute.
  - intros Hu. apply builtin_store_members in Hu.
    destruct_or!; subst u; by vm_compute.
Qed.

(** ** The codec *)

Lemma split_loop_length (s : string) (d : ascii) (out : list string) (cur : string) :
  length (split_loop s d out cur)
  = length out + 1 + length (filter (λ c, c = d) (chars s)).
Proof.
  revert out cur. induction s as [|c s IH]; intros out cur; cbn [split_loop].
  - rewrite length_app. cbn. lia.
  - unfold chars. cbn [list_ascii_of_string]. fold (chars s).
    destruct (Ascii.eqb_spec c d) as [->|Hne].
    + rewrite IH, length_app, filter_cons_True by done. cbn [length]. lia.
    + rewrite IH, filter_cons_False by done. lia.
Qed.

(** [split] and joining with the delimiter are inverse to each other: the
    parts of [s] joined by the delimiter give [s] back, there is always at
    least one part, one more than the delimiter occurs in [s], no part holds
    the delimiter, and a non-empty list of delimiter-free parts is what
    [split] returns for their join. *)
Theorem split_join_roundtrip (s : string) (delim : ascii) :
  String.concat (String delim "") (split s delim) = s
  ∧ length (split s delim) = 1 + length (filter (λ c, c = delim) (chars s))
  ∧ (∀ p, p ∈ split s delim → delim ∉ chars p)
  ∧ (∀ parts, parts ≠ [] → (∀ p, p ∈ parts → delim ∉ chars p) →
       split (String.concat (String delim "") parts) delim = parts).
Proof.
  destruct (split_split_on delim s) as (_ & Hjoin & Hparts). split_and!.
  - done.
  - unfold split. rewrite split_loop_length. done.
  - done.
  - intros parts Hne Hnd. by apply split_on_unique.
Qed.

Lemma split_join_roundtrip_witness :
  split (String.concat "|" ["17"; ""; "emp001"]) "|" = ["17"; ""; "emp001"].
Proof.
  apply (proj2 (proj2 (proj2 (split_join_roundtrip "" "|")))); [done|].
  intros p Hp. set_unfold in Hp. destruct_or!; subst p; by_compute.
Defined.

Lemma stripped_app (line body t : string) :
  stripped line body → (∀ c, c ∈ chars t → c = LF ∨ c = CR) →
  stripped (line +:+ t) body.
Proof.
  intros (t0 & -> & Ht0 & Hend) Ht. exists (t0 +:+ t). split_and!; [|..|done].
  - by rewrite sapp_assoc.
  - intros c. rewrite chars_app. intros [?|?]%elem_of_app; auto.
Qed.

Lemma strip_eol_app (line t : string) :
  (∀ c, c ∈ chars t → c = LF ∨ c = CR) → strip_eol (line +:+ t) = strip_eol line.
Proof.
  intros Ht. apply stripped_unique, stripped_app; [|done]. apply strip_eol_stripped.
Qed.

(** The parser does not see trailing CR and LF characters: a line followed
    by any run of them parses as the line itself does, and stripping is
    idempotent. *)
Theorem parse_ignores_trailing_eol (line t : string) :
  (∀ c, c ∈ chars t → c = LF ∨ c = CR) →
  parseLogLine (line +:+ t) = parseLogLine line
  ∧ strip_eol (line +:+ t) = strip_eol line
  ∧ strip_eol (strip_eol line) = strip_eol line.
Proof.
  intros Ht. split_and!.
  - unfold parseLogLine. by rewrite strip_eol_app.
  - by apply strip_eol_app.
  - apply stripped_unique. exists "". rewrite sapp_nil_r. split_and!; [done| |].
    + intros c Hc. by apply elem_of_nil in Hc.
    + intros c Hc. pose proof (strip_eol_fixed line c Hc) as He.
      split; intros ->; by vm_compute in He.
Qed.

Lemma parse_ignores_trailing_eol_witness :
  parseLogLine ("1700000000|guard_alex|emp001|EXIT|-" +:+ String CR (String LF ""))
  = parseLogLine "1700000000|guard_alex|emp001|EXIT|-".
Proof.
  apply (parse_ignores_trailing_eol "1700000000|guard_alex|emp001|EXIT|-"
           (String CR (String LF ""))).
  intros c Hc. set_unfold in Hc. destruct_or!; subst c; [by right|by left].
Defined.

(** What the parser returns passes every validator, the line is the five
    fields joined by bars and followed by CR/LF characters only, and
    formatting the result gives the stripped line and one LF: format after
    parse normalises the line ending, and the result parses to the same
    record again. *)
Theorem parse_sound (line : string) (e : LogEntry) :
  parseLogLine line = Some e →
  (validateTimestamp (timestamp e) = true ∧ validIdLike (actorId e) = true
   ∧ validatePersonId (personId e) = true ∧ validateAction (action e) = true
   ∧ validateRoomId (roomId e) = true)
  ∧ (∃ t, line = String.concat "|" (fields_of e) +:+ t
          ∧ ∀ c, c ∈ chars t → c = LF ∨ c = CR)
  ∧ formatLogEntry e = strip_eol line +:+ String LF ""
  ∧ parseLogLine (formatLogEntry e) = Some e.
Proof.
  intros Hparse.
  pose proof Hparse as (body & Hst & (_ & Hbody & _) & He)%parseLogLine_Some.
  pose proof He as (Hts & Haid & Hpid & Hact & Hroom).
  split_and!.
  - by apply validateTimestamp_spec.
  - by apply validIdLike_spec.
  - by apply validIdLike_spec.
  - by apply validateAction_spec.
  - by apply validateRoomId_spec.
  - destruct Hst as (t & -> & Ht & _). exists t. by rewrite Hbody.
  - rewrite (stripped_unique _ _ Hst), Hbody. apply formatLogEntry_joined.
  - rewrite formatLogEntry_joined. apply parse_joined_fields; [done|].
    intros c Hc. left. by apply list_elem_of_singleton in Hc.
Qed.

Lemma parse_sound_witness :
  formatLogEntry sample_entry
  = strip_eol ("1700000000|guard_alex|emp001|MOVE|vault" +:+ String CR "") +:+ String LF "".
Proof.
  refine (proj1 (proj2 (proj2 (parse_sound
    ("1700000000|guard_alex|emp001|MOVE|vault" +:+ String CR "") sample_entry _)))).
  vm_compute. reflexivity.
Defined.

(** Formatting is unambiguous on records whose fields satisfy the field
    rules: two such records with the same line are the same record. The
    formatter itself checks nothing, and without the rules two records can
    share a line. *)
Theorem formatLogEntry_injective (e1 e2 : LogEntry) :
  (valid_record e1 → valid_record e2 →
   formatLogEntry e1 = formatLogEntry e2 → e1 = e2)
  ∧ formatLogEntry {| timestamp := "1|a"; actorId := "b"; personId := "c";
                      action := "EXIT"; roomId := "-" |}
    = formatLogEntry {| timestamp := "1"; actorId := "a|b"; personId := "c";
                        action := "EXIT"; roomId := "-" |}.
Proof.
  split; [|done]. intros H1 H2 Heq.
  assert (parseLogLine (formatLogEntry e1) = Some e1) as P1.
  { rewrite formatLogEntry_joined. apply parse_joined_fields; [done|].
    intros c Hc. left. by apply list_elem_of_singleton in Hc. }
  assert (parseLogLine (formatLogEntry e2) = Some e2) as P2.
  { rewrite formatLogEntry_joined. apply parse_joined_fields; [done|].
    intros c Hc. left. by apply list_elem_of_singleton in Hc. }
  rewrite Heq in P1. congruence.
Qed.

Lemma formatLogEntry_injective_witness : sample_entry = sample_entry.
Proof.
  assert (valid_record sample_entry) as He.
  { apply valid_record_by_validators. vm_compute. reflexivity. }
  exact (proj1 (formatLogEntry_injective sample_entry sample_entry) He He eq_refl).
Defined.

(** ** Reading the log line by line *)

Lemma getlines_nolf (s cur : string) (got : bool) :
  LF ∉ chars cur → ∀ l, l ∈ getlines s cur got → LF ∉ chars l.
Proof.
  revert cur got. induction s as [|c s IH]; intros cur got Hcur l; cbn [getlines].
  - destruct got; [|by intros ?%elem_of_nil].
    by intros ->%list_elem_of_singleton.
  - destruct (Ascii.eqb_spec c LF) as [->|Hne].
    + intros [->|Hl]%elem_of_cons; [done|].
      revert Hl. apply IH. by intros ?%elem_of_nil.
    + apply IH. unfold push_back. rewrite chars_app.
      intros [?|?%list_elem_of_singleton]%elem_of_app; [done|congruence].
Qed.

Lemma getlines_got (s cur : string) : getlines s cur true ≠ [].
Proof.
  revert cur. induction s as [|c s IH]; intros cur; cbn [getlines]; [done|].
  by destruct (Ascii.eqb c LF).
Qed.

Lemma getlines_nil (s cur : string) (got : bool) :
  getlines s cur got = [] ↔ s = "" ∧ got = false.
Proof.
  split.
  - destruct s as [|c s]; cbn [getlines].
    + by destruct got.
    + destruct (Ascii.eqb c LF); [done|]. intros H. by apply getlines_got in H.
  - by intros [-> ->].
Qed.

Lemma getlines_joined (s cur : string) (got : bool) :
  (got = false → cur = "") →
  cur +:+ s = String.concat nl (getlines s cur got)
  ∨ cur +:+ s = String.concat nl (getlines s cur got) +:+ nl.
Proof.
  revert cur got. induction s as [|c s IH]; intros cur got Hcur; cbn [getlines].
  - rewrite sapp_nil_r. destruct got; [by left|]. rewrite Hcur by done. by left.
  - destruct (Ascii.eqb_spec c LF) as [->|Hne].
    + destruct (getlines s "" false) as [|l ls] eqn:E.
      * apply getlines_nil in E as [-> _]. right. done.
      * rewrite concat_cons by done.
        destruct (IH "" false) as [H|H]; [done|..];
          rewrite E in H; change ("" +:+ s) with s in H; [left|right].
        -- by rewrite H.
        -- rewrite H, !sapp_assoc. done.
    + destruct (IH (push_back cur c) true) as [H|H]; [done|..];
        unfold push_back in *; rewrite sapp_assoc in H; [by left|by right].
Qed.

Lemma getlines_line (l cur : string) (got : bool) :
  LF ∉ chars l → getlines (l +:+ nl) cur got = [cur +:+ l].
Proof.
  revert cur got. induction l as [|c l IH]; intros cur got Hl.
  - cbn. by rewrite sapp_nil_r.
  - rewrite sapp_cons. cbn [getlines].
    destruct (Ascii.eqb_spec c LF) as [->|Hne]; [destruct Hl; by left|].
    rewrite IH by (intros H; apply Hl; by right).
    unfold push_back. by rewrite sapp_assoc.
Qed.

Lemma getlines_app_lf (s rest cur : string) (got : bool) :
  getlines (s +:+ String LF rest) cur got
  = getlines (s +:+ nl) cur got ++ getlines rest "" false.
Proof.
  revert cur got. induction s as [|c s IH]; intros cur got.
  - done.
  - rewrite !sapp_cons. cbn [getlines]. destruct (Ascii.eqb c LF).
    + by rewrite IH.
    + apply IH.
Qed.

Lemma read_lines_snoc (content line : string) :
  LF ∉ chars line → content = "" ∨ back content = Some LF →
  read_lines (content +:+ line +:+ nl) = read_lines content ++ [line].
Proof.
  intros Hline [->|Hback]; unfold read_lines.
  - change ("" +:+ ?x) with x. by rewrite getlines_line.
  - rewrite (back_pop_back _ _ Hback) at 1. rewrite sapp_assoc.
    change (String LF "" +:+ line +:+ nl) with (String LF (line +:+ nl)).
    rewrite getlines_app_lf, (getlines_line line) by done.
    unfold nl. by rewrite <- (back_pop_back _ _ Hback).
Qed.

(** The [std::getline] loop over a file: no delivered line holds an LF;
    nothing is delivered exactly for the empty file; the lines joined by LF
    give the content back, up to one final LF; and a content that is empty
    or ends in LF, extended by an LF-free line and an LF, delivers the old
    lines and then the new one. *)
Theorem read_lines_properties (content : string) :
  (∀ l, l ∈ read_lines content → LF ∉ chars l)
  ∧ (read_lines content = [] ↔ content = "")
  ∧ (content = String.concat nl (read_lines content)
     ∨ content = String.concat nl (read_lines content) +:+ nl)
  ∧ (∀ line, LF ∉ chars line → content = "" ∨ back content = Some LF →
       read_lines (content +:+ line +:+ nl) = read_lines content ++ [line]).
Proof.
  split_and!.
  - apply getlines_nolf. by intros ?%elem_of_nil.
  - unfold read_lines. rewrite getlines_nil. split; [by intros [? _]|done].
  - by apply (getlines_joined content "" false).
  - intros line. apply read_lines_snoc.
Qed.

Lemma read_lines_properties_witness :
  read_lines (("a" +:+ nl) +:+ "b" +:+ nl) = read_lines ("a" +:+ nl) ++ ["b"].
Proof.
  apply (proj2 (proj2 (proj2 (read_lines_properties ("a" +:+ nl))))).
  - by_compute.
  - right. reflexivity.
Defined.

(** ** The argument loop of logappend *)

(** When every flag is one of the four options, each parameter ends as the
    value of the last pair that carries its flag (so the options may come in
    any order) and keeps its initial value without such a pair. A last
    argument with no value after it is ignored, and an argument that is not
    an option is skipped on its own. *)
Theorem parse_args_last_wins (pairs : list (string * string)) (a : LogAppend.Args) :
  Forall (λ p, p.1 ∈ ["-T"; "-E"; "-P"; "-R"]) pairs →
  LogAppend.parse_args (flag_args pairs) a
  = {| LogAppend.arg_token := last_value "-T" pairs (LogAppend.arg_token a);
       LogAppend.arg_event := last_value "-E" pairs (LogAppend.arg_event a);
       LogAppend.arg_personId := last_value "-P" pairs (LogAppend.arg_personId a);
       LogAppend.arg_roomId := last_value "-R" pairs (LogAppend.arg_roomId a) |}
  ∧ (∀ x, LogAppend.parse_args (flag_args pairs ++ [x]) a
          = LogAppend.parse_args (flag_args pairs) a)
  ∧ (∀ x y rest, x ∉ ["-T"; "-E"; "-P"; "-R"] →
       LogAppend.parse_args (x :: y :: rest) a = LogAppend.parse_args (y :: rest) a).
Proof.
  intros Hflags. split_and!.
  - revert a. induction Hflags as [|[f v] pairs Hf _ IH]; intros a.
    + by destruct a.
    + change (flag_args ((f, v) :: pairs)) with (f :: v :: flag_args pairs).
      cbn [fst] in Hf. set_unfold in Hf.
      destruct_or!; subst f; cbn [LogAppend.parse_args String.eqb Ascii.eqb Bool.eqb];
        rewrite IH; done.
  - revert a. induction Hflags as [|[f v] pairs Hf _ IH]; intros a x.
    + done.
    + change (flag_args ((f, v) :: pairs)) with (f :: v :: flag_args pairs).
      rewrite <- !app_comm_cons.
      cbn [fst] in Hf. set_unfold in Hf.
      destruct_or!; subst f; cbn [LogAppend.parse_args String.eqb Ascii.eqb Bool.eqb];
        apply IH.
  - intros x y rest Hx. cbn [LogAppend.parse_args].
    destruct (String.eqb_spec x "-T") as [->|_]; [destruct Hx; by_compute|].
    destruct (String.eqb_spec x "-E") as [->|_]; [destruct Hx; by_compute|].
    destruct (String.eqb_spec x "-P") as [->|_]; [destruct Hx; by_compute|].
    destruct (String.eqb_spec x "-R") as [->|_]; [destruct Hx; by_compute|].
    done.
Qed.

Lemma parse_args_last_wins_witness :
  LogAppend.parse_args
    ["-R"; "lobby"; "-P"; "emp001"; "-T"; "old"; "-E"; "ENTER"; "-T"; "alex-write-123"]
    LogAppend.no_args
  = {| LogAppend.arg_token := "alex-write-123"; LogAppend.arg_event := "ENTER";
       LogAppend.arg_personId := "emp001"; LogAppend.arg_roomId := "lobby" |}.
Proof.
  refine (proj1 (parse_args_last_wins
    [("-R", "lobby"); ("-P", "emp001"); ("-T", "old"); ("-E", "ENTER");
     ("-T", "alex-write-123")] LogAppend.no_args _)).
  by_compute.
Defined.

(** ** The timestamp logappend writes *)

Lemma pretty_N_char_digit (x : N) : isdigit (uchar (pretty_N_char x)) = true.
Proof. unfold pretty_N_char. by repeat case_match. Qed.

Lemma pretty_N_go_digits (x : N) (s : string) :
  all_chars (λ c, isdigit (uchar c)) s = true →
  all_chars (λ c, isdigit (uchar c)) (pretty_N_go x s) = true.
Proof.
  revert s. induction (N.lt_wf_0 x) as [x _ IH]; intros s Hs.
  destruct (decide (x = 0)%N) as [->|Hx]; [by rewrite pretty_N_go_0|].
  rewrite pretty_N_go_step by lia. apply IH.
  - apply N.div_lt; lia.
  - cbn [all_chars]. by rewrite pretty_N_char_digit.
Qed.

Lemma pretty_N_go_length_ge (x : N) (s : string) :
  String.length s ≤ String.length (pretty_N_go x s).
Proof.
  revert s. induction (N.lt_wf_0 x) as [x _ IH]; intros s.
  destruct (decide (x = 0)%N) as [->|Hx]; [by rewrite pretty_N_go_0|].
  rewrite pretty_N_go_step by lia.
  etrans; [|apply IH, N.div_lt; lia]. cbn. lia.
Qed.

Lemma pretty_N_go_length_le (x : N) (k : nat) (s : string) :
  (x < 10 ^ N.of_nat k)%N →
  String.length (pretty_N_go x s) ≤ k + String.length s.
Proof.
  revert k s. induction (N.lt_wf_0 x) as [x _ IH]; intros k s Hk.
  destruct (decide (x = 0)%N) as [->|Hx]; [rewrite pretty_N_go_0; lia|].
  rewrite pretty_N_go_step by lia.
  destruct k as [|k]; [cbn in Hk; lia|].
  etrans; [apply (IH (x `div` 10)%N ltac:(apply N.div_lt; lia) k)|cbn; lia].
  apply N.Div0.div_lt_upper_bound.
  by rewrite Nat2N.inj_succ, N.pow_succ_r' in Hk.
Qed.

Lemma pretty_N_go_length_gt (x : N) (k : nat) (s : string) :
  (10 ^ N.of_nat k ≤ x)%N →
  k + 1 + String.length s ≤ String.length (pretty_N_go x s).
Proof.
  revert k s. induction (N.lt_wf_0 x) as [x _ IH]; intros k s Hk.
  assert (0 < x)%N as Hx.
  { eapply N.lt_le_trans; [|exact Hk]. apply N.neq_0_lt_0, N.pow_nonzero. lia. }
  rewrite pretty_N_go_step by done.
  destruct k as [|k].
  - etrans; [|apply pretty_N_go_length_ge]. cbn. lia.
  - etrans; [|apply (IH (x `div` 10)%N ltac:(apply N.div_lt; lia) k)]; [cbn; lia|].
    apply N.div_le_lower_bound; [lia|].
    by rewrite Nat2N.inj_succ, N.pow_succ_r' in Hk.
Qed.

Lemma validateTimestamp_pretty (z : Z) :
  validateTimestamp (pretty z) = true ↔ (0 ≤ z < 10 ^ 11)%Z.
Proof.
  destruct z as [|p|p].
  - split; [intros _; lia|done].
  - change (pretty (Z.pos p)) with (pretty_N_go (N.pos p) "").
    unfold validateTimestamp.
    pose proof (pretty_N_go_length_gt (N.pos p) 0 "" ltac:(cbn; lia)) as Hpos.
    cbn [Nat.add String.length] in Hpos.
    case_bool_decide as Hempty; [rewrite Hempty in Hpos; cbn in Hpos; lia|].
    cbn [orb].
    destruct (Nat.ltb_spec 11 (String.length (pretty_N_go (N.pos p) ""))) as [Hlen|Hlen].
    + split; [done|]. intros [_ Hp].
      pose proof (pretty_N_go_length_le (N.pos p) 11 "" ltac:(cbn; lia)) as Hle.
      cbn [String.length] in Hle. lia.
    + rewrite pretty_N_go_digits by done. split; [|done]. intros _. split; [lia|].
      destruct (decide (Z.pos p < 10 ^ 11)%Z) as [|Hge]; [done|].
      pose proof (pretty_N_go_length_gt (N.pos p) 11 "" ltac:(cbn; lia)) as Hgt.
      cbn [String.length] in Hgt. lia.
  - split; [|lia]. intros Hv. exfalso.
    change (pretty (Z.neg p)) with ("-" +:+ pretty (N.pos p)) in Hv.
    unfold validateTimestamp in Hv. rewrite sapp_cons in Hv.
    case_bool_decide; [done|]. cbn [orb] in Hv.
    destruct (11 <? _)%nat; [done|]. cbn [all_chars] in Hv.
    by vm_compute in Hv.
Qed.


(** ** Runs of logappend *)

Lemma validate_and_write_fs (env : Env) (fs : gmap string string)
    (user : UserTokenInfo) (event pid rid : string) :
  ∃ suffix,
    fs_after (validate_and_write env fs user event pid rid)
    = <[LOG_FILE_PATH := default "" (fs !! LOG_FILE_PATH) +:+ suffix]> fs.
Proof.
  unfold validate_and_write.
  destruct (LogAppend.enforce_rules _ _ _ _) as [r|].
  { exists "". by rewrite sapp_nil_r. }
  destruct (write_limit env) as [k|].
  2: { exists "". by rewrite sapp_nil_r. }
  destruct (_ <=? k)%nat; eexists; reflexivity.
Qed.

Lemma main_fs_shape (argv : list string) (fs : gmap string string) (env : Env) :
  let o := LogAppend.main argv fs env in
  fs_after o = fs
  ∨ ∃ suffix,
      fs_after o = <[LOG_FILE_PATH := default "" (fs !! LOG_FILE_PATH) +:+ suffix]> fs.
Proof.
  intros o.
  destruct (main_cases argv fs env) as [(_ & _ & Hfs)|[_ Hcase]];
    fold o in Hfs || fold o in Hcase; [by left|].
  destruct (authenticateToken _ _ _) as [user|]; [|left; by rewrite Hcase].
  destruct (open_append_ok env); cbn [negb] in Hcase; [|left; by rewrite Hcase].
  destruct (flock_ok env); cbn [negb] in Hcase.
  - right. rewrite Hcase. apply validate_and_write_fs.
  - right. exists "". rewrite Hcase, sapp_nil_r. done.
Qed.

(** logappend never modifies or deletes what is there: whatever the
    arguments and whatever the operating system does, every file other than
    the log is left as it was, the log file is never removed, and the new
    content of the log is its old content followed by a (possibly empty)
    suffix. *)
Theorem logappend_only_appends (argv : list string) (fs : gmap string string)
    (env : Env) :
  let o := LogAppend.main argv fs env in
  (∀ path, path ≠ LOG_FILE_PATH → fs_after o !! path = fs !! path)
  ∧ (is_Some (fs !! LOG_FILE_PATH) → is_Some (fs_after o !! LOG_FILE_PATH))
  ∧ ∃ suffix, default "" (fs_after o !! LOG_FILE_PATH)
              = default "" (fs !! LOG_FILE_PATH) +:+ suffix.
Proof.
  intros o. destruct (main_fs_shape argv fs env) as [Hfs|[suffix Hfs]];
    fold o in Hfs; rewrite Hfs.
  - split_and!; [done..|]. exists "". by rewrite sapp_nil_r.
  - split_and!.
    + intros path Hpath. by rewrite lookup_insert_ne.
    + intros _. by rewrite lookup_insert_eq.
    + exists suffix. by rewrite lookup_insert_eq.
Qed.

Lemma logappend_only_appends_witness :
  let fs0 : gmap string string :=
    {[ LOG_FILE_PATH := "1700000000|guard_alex|emp001|ENTER|lobby" +:+ nl;
       "notes.txt" := "keep" ]} in
  let o := LogAppend.main
    ["./logappend"; "-T"; "alex-write-123"; "-E"; "EXIT"; "-P"; "emp001"; "-R"; "-"]
    fs0 (env_ok 1700000060) in
  fs_after o !! "notes.txt" = fs0 !! "notes.txt"
  ∧ is_Some (fs_after o !! LOG_FILE_PATH).
Proof.
  intros fs0 o.
  destruct (logappend_only_appends
    ["./logappend"; "-T"; "alex-write-123"; "-E"; "EXIT"; "-P"; "emp001"; "-R"; "-"]
    fs0 (env_ok 1700000060)) as (Hframe & Hkeep & _).
  split.
  - apply Hframe. discriminate.
  - apply Hkeep. vm_compute. eexists. reflexivity.
Defined.

Lemma main_stdout (argv : list string) (fs : gmap string string) (env : Env) :
  let o := LogAppend.main argv fs env in
  (exit_code o = 0%Z ∧ stdout o = "Successfully appended log entry" +:+ nl ∧ stderr o = "")
  ∨ ((exit_code o = 1%Z ∨ exit_code o = 2%Z) ∧ stdout o = "" ∧ stderr o ≠ "").
Proof.
  intros o. subst o. unfold LogAppend.main, LogAppend.rejection_message, LogAppend.usage,
    printSecureError, exit.
  repeat case_match; cbn [exit_code stdout stderr]; (by left) || (right; split_and!; auto).
Qed.

(** Without a token authorised to append nothing happens to the file
    system, not even the creation of the log file, nothing is printed on
    standard output and the status is not 0; when the request is otherwise
    well formed the status is 1 and the message is the generic one. *)
Theorem unauthorised_append_changes_nothing (argv : list string)
    (fs : gmap string string) (env : Env) :
  let a := LogAppend.parse_args (tail argv) LogAppend.no_args in
  let o := LogAppend.main argv fs env in
  authenticateToken (LogAppend.arg_token a) Append getBuiltInTokenStore = None →
  fs_after o = fs ∧ exit_code o ≠ 0%Z ∧ stdout o = ""
  ∧ (well_formed_request argv →
     exit_code o = 1%Z ∧ stderr o = "[error] authentication failed" +:+ nl).
Proof.
  intros a o Hauth.
  destruct (main_cases argv fs env) as [(Hnwf & Hcode & Hfs)|[Hwf Hcase]];
    fold o in Hcode, Hfs || fold a o in Hcase.
  - split_and!; [done|by rewrite Hcode| |done].
    destruct (main_stdout argv fs env) as [(H0 & _)|(_ & Hout & _)];
      fold o in H0 || fold o in Hout; [congruence|done].
  - rewrite Hauth in Hcase. rewrite Hcase. by split_and!.
Qed.

Lemma unauthorised_append_changes_nothing_witness :
  let o := LogAppend.main
    ["./logappend"; "-T"; "kim-read-456"; "-E"; "ENTER"; "-P"; "emp006"; "-R"; "lobby"]
    ∅ (env_ok 1700000060) in
  fs_after o = ∅ ∧ exit_code o = 1%Z.
Proof.
  intros o.
  destruct (unauthorised_append_changes_nothing
    ["./logappend"; "-T"; "kim-read-456"; "-E"; "ENTER"; "-P"; "emp006"; "-R"; "lobby"]
    ∅ (env_ok 1700000060) ltac:(vm_compute; reflexivity)) as (Hfs & _ & _ & Hwf).
  split; [exact Hfs|]. apply Hwf.
  split_and!; try (vm_compute; reflexivity). discriminate.
Defined.

Lemma main_exit0_inv (argv : list string) (fs : gmap string string) (env : Env) :
  let a := LogAppend.parse_args (tail argv) LogAppend.no_args in
  let log := default "" (fs !! LOG_FILE_PATH) in
  let it := LogAppend.rebuild_state env (<[LOG_FILE_PATH := log]> fs) LOG_FILE_PATH
              !! LogAppend.arg_personId a in
  let o := LogAppend.main argv fs env in
  exit_code o = 0%Z ↔
  ∃ user k,
    well_formed_request argv
    ∧ authenticateToken (LogAppend.arg_token a) Append getBuiltInTokenStore = Some user
    ∧ open_append_ok env = true ∧ flock_ok env = true
    ∧ LogAppend.enforce_rules (LogAppend.currentlyInside it) (LogAppend.currentRoom it)
        (LogAppend.arg_event a) (LogAppend.arg_roomId a) = None
    ∧ write_limit env = Some k
    ∧ String.length (formatLogEntry
        {| timestamp := LogAppend.getCurrentTimestamp env;
           actorId := user_actorId user; personId := LogAppend.arg_personId a;
           action := LogAppend.arg_event a; roomId := LogAppend.arg_roomId a |}) ≤ k
    ∧ fs_after o = <[LOG_FILE_PATH := log +:+ formatLogEntry
        {| timestamp := LogAppend.getCurrentTimestamp env;
           actorId := user_actorId user; personId := LogAppend.arg_personId a;
           action := LogAppend.arg_event a; roomId := LogAppend.arg_roomId a |}]> fs.
Proof.
  intros a log it o.
  destruct (main_cases argv fs env) as [(Hnwf & Hcode & Hfs)|[Hwf Hcase]];
    fold o in Hcode, Hfs || fold a o in Hcase.
  { rewrite Hcode. split; [done|]. by intros (? & ? & ? & _). }
  destruct (authenticateToken _ _ _) as [user|].
  2: { rewrite Hcase. split; [done|]. by intros (? & ? & _ & ? & _). }
  destruct (open_append_ok env); cbn [negb] in Hcase.
  2: { rewrite Hcase. split; [done|]. by intros (? & ? & _ & _ & ? & _). }
  destruct (flock_ok env); cbn [negb] in Hcase.
  2: { rewrite Hcase. split; [done|]. by intros (? & ? & _ & _ & _ & ? & _). }
  rewrite Hcase. unfold validate_and_write. fold log it.
  destruct (LogAppend.enforce_rules _ _ _ _) as [r|].
  { split; [done|]. by intros (? & ? & _ & _ & _ & _ & ? & _). }
  destruct (write_limit env) as [k|].
  2: { split; [done|]. by intros (? & ? & _ & _ & _ & _ & _ & ? & _). }
  destruct (Nat.leb_spec (String.length (formatLogEntry
      {| timestamp := LogAppend.getCurrentTimestamp env;
         actorId := user_actorId user; personId := LogAppend.arg_personId a;
         action := LogAppend.arg_event a; roomId := LogAppend.arg_roomId a |})) k)
    as [Hk|Hk]; cbn [exit exit_code fs_after].
  - split; [|done]. intros _. exists user, k. by split_and!.
  - split; [done|]. intros (u & k' & _ & [= <-] & _ & _ & _ & [= <-] & Hle & _). lia.
Qed.

(** The status of logappend is 0, 1 or 2, standard output carries the
    success message exactly when it is 0, and every other run reports on
    standard error. The status is 0 exactly when the request is well formed,
    the token is authorised to append, the log could be opened and locked,
    the rules accept the event against the rebuilt state and the write
    transferred the whole line; the log is then its old content followed by
    the one formatted record of the authenticated actor. *)
Theorem logappend_success (argv : list string) (fs : gmap string string) (env : Env) :
  let a := LogAppend.parse_args (tail argv) LogAppend.no_args in
  let log := default "" (fs !! LOG_FILE_PATH) in
  let it := LogAppend.rebuild_state env (<[LOG_FILE_PATH := log]> fs) LOG_FILE_PATH
              !! LogAppend.arg_personId a in
  let record user :=
    {| timestamp := LogAppend.getCurrentTimestamp env;
       actorId := user_actorId user; personId := LogAppend.arg_personId a;
       action := LogAppend.arg_event a; roomId := LogAppend.arg_roomId a |} in
  let o := LogAppend.main argv fs env in
  ((exit_code o = 0%Z ∧ stdout o = "Successfully appended log entry" +:+ nl ∧ stderr o = "")
   ∨ ((exit_code o = 1%Z ∨ exit_code o = 2%Z) ∧ stdout o = "" ∧ stderr o ≠ ""))
  ∧ (exit_code o = 0%Z ↔
     ∃ user k,
       well_formed_request argv
       ∧ authenticateToken (LogAppend.arg_token a) Append getBuiltInTokenStore = Some user
       ∧ open_append_ok env = true ∧ flock_ok env = true
       ∧ LogAppend.enforce_rules (LogAppend.currentlyInside it) (LogAppend.currentRoom it)
           (LogAppend.arg_event a) (LogAppend.arg_roomId a) = None
       ∧ write_limit env = Some k
       ∧ String.length (formatLogEntry (record user)) ≤ k)
  ∧ (∀ user,
       authenticateToken (LogAppend.arg_token a) Append getBuiltInTokenStore = Some user →
       exit_code o = 0%Z →
       fs_after o = <[LOG_FILE_PATH := log +:+ formatLogEntry (record user)]> fs).
Proof.
  intros a log it record o. split_and!.
  - apply main_stdout.
  - split.
    + intros (user & k & ? & ? & ? & ? & ? & ? & ? & _)%main_exit0_inv.
      exists user, k. by split_and!.
    + intros (user & k & Hwf & Hauth & Hopen & Hlock & Hok & Hk & Hle).
      destruct (main_cases argv fs env) as [(Hnwf & _)|[_ Hcase]]; [done|].
      fold a o in Hcase. rewrite Hauth, Hopen, Hlock in Hcase. cbn [negb] in Hcase.
      unfold validate_and_write in Hcase. fold log it in Hcase.
      rewrite Hok, Hk in Hcase. fold (record user) in Hcase.
      rewrite (proj2 (Nat.leb_le _ _) Hle) in Hcase. by rewrite Hcase.
  - intros user Hauth (user' & k & _ & Hauth' & _ & _ & _ & _ & _ & Hfs)%main_exit0_inv.
    fold a in Hauth'. rewrite Hauth in Hauth'. by injection Hauth' as <-.
Qed.

Lemma logappend_success_witness :
  let fs0 : gmap string string :=
    {[ LOG_FILE_PATH := "1700000000|guard_alex|emp001|ENTER|lobby" +:+ nl ]} in
  let o := LogAppend.main
    ["./logappend"; "-T"; "lee-admin-789"; "-E"; "EXIT"; "-P"; "emp001"; "-R"; "lobby"]
    fs0 (env_ok 1700000060) in
  exit_code o = 0%Z
  ∧ fs_after o = <[LOG_FILE_PATH := "1700000000|guard_alex|emp001|ENTER|lobby" +:+ nl
                     +:+ "1700000060|admin_lee|emp001|EXIT|lobby" +:+ nl]> fs0.
Proof.
  intros fs0 o.
  pose proof (logappend_success
    ["./logappend"; "-T"; "lee-admin-789"; "-E"; "EXIT"; "-P"; "emp001"; "-R"; "lobby"]
    fs0 (env_ok 1700000060)) as H.
  cbv zeta in H. fold o in H. destruct H as (_ & Hiff & Hfs).
  assert (exit_code o = 0%Z) as Hcode.
  { apply Hiff.
    exists {| user_actorId := "admin_lee"; permission := ReadWrite;
              tokenHash := "f929608275fa3fa111110583af685764f71a1ddc67dd2af65284e35eceb583ad" |},
      4096.
    split_and!; try (vm_compute; reflexivity).
    - split_and!; try (vm_compute; reflexivity). discriminate.
    - vm_compute. lia. }
  split; [exact Hcode|].
  etrans; [exact (Hfs _ ltac:(vm_compute; reflexivity) Hcode)|].
  vm_compute. reflexivity.
Defined.

Lemma id_alphabet_no_eol_no_bar (c : ascii) :
  c ∈ ID_ALPHABET → c ≠ LF ∧ c ≠ "|"%char.
Proof. intros Hc. split; intros ->; revert Hc; by_compute. Qed.

Lemma valid_record_chars (e : LogEntry) (c : ascii) :
  valid_record e →
  c ∈ chars (String.concat "|" (fields_of e)) → c ∈ ID_ALPHABET ∨ c = "|"%char.
Proof.
  intros ((_ & Hts) & (_ & Haid) & (_ & Hpid) & Hact & Hroom).
  unfold fields_of. cbn [String.concat]. rewrite !chars_app.
  assert (∀ d, d ∈ DIGITS → d ∈ ID_ALPHABET) as Hdigits.
  { apply Forall_forall. by_compute. }
  assert (∀ d, d ∈ chars (action e) → d ∈ ID_ALPHABET) as Haction.
  { apply Forall_forall. destruct Hact as [-> |[-> | ->]]; by_compute. }
  assert (∀ d, d ∈ chars (roomId e) → d ∈ ID_ALPHABET) as Hrooms.
  { apply Forall_forall. destruct Hroom as [Hroom| ->]; [|by_compute].
    unfold ROOM_WHITELIST in Hroom.
    repeat (apply elem_of_cons in Hroom as [->|Hroom]; [by_compute|]).
    by apply elem_of_nil in Hroom. }
  intros Hc. repeat (apply elem_of_app in Hc as [Hc|Hc]); auto.
  all: apply list_elem_of_singleton in Hc; auto.
Qed.

(** What a successful run wrote is read back. After a run with status 0, on
    a log that was empty or ended in LF and with the clock between 0 and
    10^11 - 1, the log is its old content followed by the formatted record
    of the request; logread's entries are the old entries followed by that
    record, and the state rebuilt from the new log is the old state updated
    by it. *)
Theorem appended_record_reads_back (argv : list string) (fs : gmap string string)
    (env : Env) :
  let a := LogAppend.parse_args (tail argv) LogAppend.no_args in
  let log := default "" (fs !! LOG_FILE_PATH) in
  let o := LogAppend.main argv fs env in
  let log' := default "" (fs_after o !! LOG_FILE_PATH) in
  exit_code o = 0%Z →
  (0 ≤ clock env < 10 ^ 11)%Z →
  log = "" ∨ back log = Some LF →
  ∃ e, timestamp e = LogAppend.getCurrentTimestamp env
       ∧ (∃ user, authenticateToken (LogAppend.arg_token a) Append getBuiltInTokenStore
                  = Some user ∧ actorId e = user_actorId user)
       ∧ personId e = LogAppend.arg_personId a
       ∧ action e = LogAppend.arg_event a
       ∧ roomId e = LogAppend.arg_roomId a
       ∧ log' = log +:+ formatLogEntry e
       ∧ LogRead.read_entries (read_lines log')
         = LogRead.read_entries (read_lines log) ++ [e]
       ∧ LogAppend.replay (read_lines log')
         = LogAppend.apply_entry (LogAppend.replay (read_lines log)) e.
Proof.
  intros a log o log' Hcode Hclock Hlog.
  apply main_exit0_inv in Hcode
    as (user & k & Hwf & Hauth & _ & _ & _ & _ & _ & Hfs).
  fold a log o in Hauth, Hfs.
  set (e := {| timestamp := LogAppend.getCurrentTimestamp env;
               actorId := user_actorId user; personId := LogAppend.arg_personId a;
               action := LogAppend.arg_event a; roomId := LogAppend.arg_roomId a |}) in *.
  assert (log' = log +:+ formatLogEntry e) as Hlog'.
  { subst log'. by rewrite Hfs, lookup_insert_eq. }
  assert (valid_record e) as He.
  { destruct Hwf as (_ & _ & Hact & Hroom & Hpid). fold a in Hact, Hroom, Hpid.
    apply valid_record_by_validators. unfold e, LogAppend.getCurrentTimestamp.
    cbn [timestamp actorId personId action roomId].
    rewrite Hact, Hroom, Hpid, (proj2 (validateTimestamp_pretty _) Hclock).
    unfold authenticateToken in Hauth. case_bool_decide; [done|].
    apply scan_store_Some in Hauth as (pre & post & Hst & _).
    assert (user ∈ BUILT_IN_STORE) as Hin.
    { unfold getBuiltInTokenStore in Hst. rewrite Hst. apply elem_of_app. right. by left. }
    apply builtin_store_members in Hin. by destruct_or!; subst user. }
  assert (read_lines log' = read_lines log ++ [String.concat "|" (fields_of e)]) as Hlines.
  { rewrite Hlog', formatLogEntry_joined. apply read_lines_snoc; [|done].
    intros Hc%(valid_record_chars e _ He).
    destruct Hc as [Hc| Hc]; [by apply id_alphabet_no_eol_no_bar in Hc as [? _]|done]. }
  assert (parseLogLine (String.concat "|" (fields_of e)) = Some e) as Hparse.
  { rewrite <- (sapp_nil_r (String.concat "|" (fields_of e))).
    apply parse_joined_fields; [done|]. by intros c ?%elem_of_nil. }
  exists e. split_and!; try done.
  - by exists user.
  - rewrite !read_entries_omap, Hlines, omap_app. cbn [omap list_omap].
    by rewrite Hparse.
  - unfold LogAppend.replay. rewrite Hlines, fold_left_app. cbn [fold_left].
    unfold LogAppend.replay_line at 1. by rewrite Hparse.
Qed.

Lemma appended_record_reads_back_witness :
  let o := LogAppend.main
    ["./logappend"; "-T"; "lee-admin-789"; "-E"; "ENTER"; "-P"; "emp001"; "-R"; "vault"]
    ∅ (env_ok 1700000060) in
  ∃ e, LogRead.read_entries (read_lines (default "" (fs_after o !! LOG_FILE_PATH)))
       = LogRead.read_entries (read_lines (default "" ((∅ : gmap string string) !! LOG_FILE_PATH)))
           ++ [e]
       ∧ actorId e = "admin_lee".
Proof.
  intros o.
  assert (exit_code o = 0%Z) as Hcode by (vm_compute; reflexivity).
  assert (0 ≤ clock (env_ok 1700000060) < 10 ^ 11)%Z as Hclock
    by (unfold env_ok; cbn [clock]; lia).
  pose proof (appended_record_reads_back
    ["./logappend"; "-T"; "lee-admin-789"; "-E"; "ENTER"; "-P"; "emp001"; "-R"; "vault"]
    (∅ : gmap string string) (env_ok 1700000060)) as H.
  cbv zeta in H. fold o in H.
  specialize (H Hcode Hclock (or_introl eq_refl)).
  destruct H as (e & _ & (user & Hauth & Hactor) & _ & _ & _ & _ & Hread & _).
  exists e. split; [exact Hread|].
  rewrite Hactor. vm_compute in Hauth. by injection Hauth as <-.
Defined.

(** ** Runs of logread *)

(** logread never changes the file system, whatever its arguments and
    whatever the operating system does; its status is 0, 1 or 2; and it ends
    with status 0 or prints anything on standard output only when called as
    [-T token] with a token authorised to read. *)
Theorem logread_reads_only (argv : list string) (fs : gmap string string)
    (env : Env) :
  let o := LogRead.main argv fs env in
  fs_after o = fs
  ∧ (exit_code o = 0%Z ∨ exit_code o = 1%Z ∨ exit_code o = 2%Z)
  ∧ (exit_code o = 0%Z ∨ stdout o ≠ "" →
     length argv = 3 ∧ nth 1 argv "" = "-T"
     ∧ is_Some (authenticateToken (nth 2 argv "") Read getBuiltInTokenStore)).
Proof.
  intros o. subst o. unfold LogRead.main.
  destruct (Nat.eqb_spec (length argv) 3) as [Hlen|Hlen]; cbn [negb orb].
  2: { split_and!; [done|auto|]. by intros [?|?]. }
  destruct (String.eqb_spec (nth 1 argv "") "-T") as [Hflag|Hflag]; cbn [negb].
  2: { split_and!; [done|auto|]. by intros [?|?]. }
  cbv zeta.
  destruct (authenticateToken _ _ _) as [user|].
  2: { split_and!; [done|auto|]. by intros [?|?]. }
  assert (length argv = 3 ∧ nth 1 argv "" = "-T" ∧ is_Some (Some user)) as Hok by done.
  unfold openFileRO, lockFile, ifstream.
  destruct (open_ro_refusal env) as [[]|]; cbn [Z.ltb Z.compare refusal_errno];
    [by auto..|].
  destruct (fs !! LOG_FILE_PATH); cbn [Z.ltb Z.compare]; [|by auto].
  destruct (flock_ok env); cbn [negb]; [|by auto].
  destruct (ifstream_ok env); [|by auto].
  case_bool_decide; by auto.
Qed.

Lemma logread_reads_only_witness :
  let o := LogRead.main ["./logread"; "-T"; "lee-admin-789"] ∅ (env_ok 1700000060) in
  length ["./logread"; "-T"; "lee-admin-789"] = 3
  ∧ nth 1 ["./logread"; "-T"; "lee-admin-789"] "" = "-T"
  ∧ is_Some (authenticateToken (nth 2 ["./logread"; "-T"; "lee-admin-789"] "")
               Read getBuiltInTokenStore).
Proof.
  intros o.
  assert (exit_code o = 0%Z) as Hcode by (vm_compute; reflexivity).
  pose proof (logread_reads_only ["./logread"; "-T"; "lee-admin-789"]
    (∅ : gmap string string) (env_ok 1700000060)) as H.
  cbv zeta in H. fold o in H. destruct H as (_ & _ & H).
  exact (H (or_introl Hcode)).
Defined.

(** ** The rebuilt state *)



Lemma enforce_rules_None (inside : bool) (cur ev r : string) :
  LogAppend.enforce_rules inside cur ev r = None →
  (ev = "ENTER" → inside = false ∧ r ≠ "-")
  ∧ (ev = "MOVE" → inside = true ∧ r ≠ cur ∧ r ≠ "-")
  ∧ (ev = "EXIT" → inside = true ∧ (r = "-" ∨ r = cur)).
Proof.
  unfold LogAppend.enforce_rules. intros Hok.
  destruct (String.eqb_spec r "-") as [Hd|Hd];
    destruct (String.eqb_spec r cur) as [Hc|Hc];
    destruct inside; split_and!; intros ->; cbn in Hok; try done; auto.
Qed.

(** An event that the rules accept changes the person as the transition
    table says: ENTER takes a person who is outside into the requested room,
    MOVE takes a person who is inside into a different room, and neither
    room is "-"; EXIT takes a person who is inside, out. No other person is
    touched, and when the requested room passes [validateRoomId] the update
    keeps the state free of persons inside a room "-". *)
Theorem accepted_event_effect (st : gmap string LogAppend.PersonState) (e : LogEntry) :
  let before := st !! personId e in
  let after := LogAppend.apply_entry st e !! personId e in
  LogAppend.enforce_rules (LogAppend.currentlyInside before)
    (LogAppend.currentRoom before) (action e) (roomId e) = None →
  (action e = "ENTER" →
   LogAppend.currentlyInside before = false
   ∧ after = Some {| LogAppend.inside := true; LogAppend.room := roomId e |}
   ∧ roomId e ≠ "-")
  ∧ (action e = "MOVE" →
     LogAppend.currentlyInside before = true
     ∧ after = Some {| LogAppend.inside := true; LogAppend.room := roomId e |}
     ∧ roomId e ≠ "-" ∧ roomId e ≠ LogAppend.currentRoom before)
  ∧ (action e = "EXIT" →
     LogAppend.currentlyInside before = true
     ∧ after = Some {| LogAppend.inside := false; LogAppend.room := "" |}
     ∧ (roomId e = "-" ∨ roomId e = LogAppend.currentRoom before))
  ∧ (∀ pid, pid ≠ personId e → LogAppend.apply_entry st e !! pid = st !! pid)
  ∧ (validateRoomId (roomId e) = true →
     map_Forall (λ _ ps, LogAppend.inside ps = true → LogAppend.room ps ∈ ROOM_WHITELIST) st →
     map_Forall (λ _ ps, LogAppend.inside ps = true → LogAppend.room ps ∈ ROOM_WHITELIST)
       (LogAppend.apply_entry st e)).
Proof.
  intros before after Hok. subst after.
  pose proof (enforce_rules_None _ _ _ _ Hok) as (HE & HM & HX).
  split_and!.
  - intros Hact. destruct (HE Hact) as [Hin Hroom]. split_and!; try done.
    unfold LogAppend.apply_entry. rewrite lookup_insert_eq, Hact. reflexivity.
  - intros Hact. destruct (HM Hact) as (Hin & Hcur & Hroom). split_and!; try done.
    unfold LogAppend.apply_entry. rewrite lookup_insert_eq, Hact. reflexivity.
  - intros Hact. destruct (HX Hact) as (Hin & Hroom). split_and!; try done.
    unfold LogAppend.apply_entry. rewrite lookup_insert_eq, Hact. reflexivity.
  - intros pid Hpid. by apply apply_entry_other.
  - intros Hvalid Hst. unfold LogAppend.apply_entry.
    apply map_Forall_insert_2; [|done].
    apply validateRoomId_spec in Hvalid.
    destruct (String.eqb_spec (action e) "ENTER") as [Hact|_].
    { intros _. destruct (HE Hact) as [_ Hroom]. by destruct Hvalid. }
    destruct (String.eqb_spec (action e) "MOVE") as [Hact|_].
    { intros _. destruct (HM Hact) as (_ & _ & Hroom). by destruct Hvalid. }
    destruct (String.eqb_spec (action e) "EXIT") as [Hact|_]; [done|].
    subst before. destruct (st !! personId e) as [ps|] eqn:E; cbn [default].
    + by apply (Hst _ _ E).
    + done.
Qed.

Lemma accepted_event_effect_witness :
  let st : gmap string LogAppend.PersonState :=
    {[ "emp001" := {| LogAppend.inside := true; LogAppend.room := "lobby" |} ]} in
  let e := {| timestamp := "1700000060"; actorId := "guard_alex"; personId := "emp001";
              action := "MOVE"; roomId := "vault" |} in
  LogAppend.apply_entry st e !! "emp001"
  = Some {| LogAppend.inside := true; LogAppend.room := "vault" |}.
Proof.
  intros st e.
  assert (LogAppend.enforce_rules (LogAppend.currentlyInside (st !! personId e))
            (LogAppend.currentRoom (st !! personId e)) (action e) (roomId e) = None)
    as Hok by (vm_compute; reflexivity).
  destruct (accepted_event_effect st e Hok) as (_ & Hmove & _).
  destruct (Hmove eq_refl) as (_ & Hafter & _). exact Hafter.
Defined.

(** When the rules accept the event but the write fails or is cut short,
    logappend ends with status 1 and does not undo anything: after a failed
    write the log has its old content, after a write of only [k] bytes it has
    its old content followed by the first [k] bytes of the line. *)
Theorem short_write_is_not_undone (argv : list string) (fs : gmap string string)
    (env : Env) (user : UserTokenInfo) :
  let a := LogAppend.parse_args (tail argv) LogAppend.no_args in
  let log := default "" (fs !! LOG_FILE_PATH) in
  let it := LogAppend.rebuild_state env (<[LOG_FILE_PATH := log]> fs) LOG_FILE_PATH
              !! LogAppend.arg_personId a in
  let line := formatLogEntry
    {| timestamp := LogAppend.getCurrentTimestamp env;
       actorId := user_actorId user; personId := LogAppend.arg_personId a;
       action := LogAppend.arg_event a; roomId := LogAppend.arg_roomId a |} in
  let o := LogAppend.main argv fs env in
  well_formed_request argv →
  authenticateToken (LogAppend.arg_token a) Append getBuiltInTokenStore = Some user →
  open_append_ok env = true → flock_ok env = true →
  LogAppend.enforce_rules (LogAppend.currentlyInside it) (LogAppend.currentRoom it)
    (LogAppend.arg_event a) (LogAppend.arg_roomId a) = None →
  (write_limit env = None →
   exit_code o = 1%Z ∧ stderr o = "[error] failed to write log entry" +:+ nl
   ∧ default "" (fs_after o !! LOG_FILE_PATH) = log)
  ∧ (∀ k, write_limit env = Some k → k < String.length line →
     exit_code o = 1%Z ∧ stderr o = "[error] failed to write log entry" +:+ nl
     ∧ default "" (fs_after o !! LOG_FILE_PATH) = log +:+ String.substring 0 k line).
Proof.
  intros a log it line o Hwf Hauth Hopen Hlock Hok.
  destruct (main_cases argv fs env) as [(Hnwf & _)|[_ Hcase]]; [done|].
  fold a o in Hcase. rewrite Hauth, Hopen, Hlock in Hcase. cbn [negb] in Hcase.
  unfold validate_and_write in Hcase. fold log it in Hcase. rewrite Hok in Hcase.
  fold line in Hcase. split.
  - intros Hw. rewrite Hw in Hcase. rewrite Hcase. cbn [exit exit_code stderr fs_after].
    by rewrite lookup_insert_eq.
  - intros k Hw Hk. rewrite Hw in Hcase.
    destruct (Nat.leb_spec (String.length line) k); [lia|].
    rewrite Hcase. cbn [exit exit_code stderr fs_after]. by rewrite lookup_insert_eq.
Qed.

Lemma short_write_is_not_undone_witness :
  let env := {| open_append_ok := true; open_ro_refusal := None; flock_ok := true;
                ifstream_ok := true; write_limit := Some 10; clock := 1700000060 |} in
  let o := LogAppend.main
    ["./logappend"; "-T"; "alex-write-123"; "-E"; "ENTER"; "-P"; "emp001"; "-R"; "lobby"]
    ∅ env in
  exit_code o = 1%Z ∧ default "" (fs_after o !! LOG_FILE_PATH) = "1700000060".
Proof.
  intros env o.
  pose proof (short_write_is_not_undone
    ["./logappend"; "-T"; "alex-write-123"; "-E"; "ENTER"; "-P"; "emp001"; "-R"; "lobby"]
    (∅ : gmap string string) env
    {| user_actorId := "guard_alex"; permission := AppendOnly;
       tokenHash := "e45703ec0bf6e9b29fec9e4819f33c7c8a302d93eccef0f7bddd57c80c93f5a0" |}) as H.
  cbv zeta in H. fold o in H.
  assert (well_formed_request
    ["./logappend"; "-T"; "alex-write-123"; "-E"; "ENTER"; "-P"; "emp001"; "-R"; "lobby"])
    as Hwf by (split_and!; try (vm_compute; reflexivity); discriminate).
  specialize (H Hwf ltac:(vm_compute; reflexivity) eq_refl eq_refl
                ltac:(vm_compute; reflexivity)).
  destruct H as [_ H].
  destruct (H 10 eq_refl ltac:(vm_compute; lia)) as (Hcode & _ & Hlog).
  split; [exact Hcode|]. etrans; [exact Hlog|]. vm_compute. reflexivity.
Defined.
